(** * A shallow embedding of the Brainfuck-to-x86-64 compiler [bfc.c]

    The development follows the C source function by function.  The
    compiler state is the [Compiler] struct, the input is the [Source]
    struct, and every [fprintf (c->output, ...)] call appends one record
    to the output of the compiler; [render] gives the text of a record.
    A call of [error], which prints a message and leaves the process with
    [exit(1)], is the [Exit] result: it carries the message, the position
    argument and the compiler state at that moment, whose output is what
    the output file holds when the process ends.

    A [char] is an [ascii], a [size_t] a [nat], an [int] a [Z] with the
    operations of [Z].  That is the arithmetic of the C program as long as
    every [int] stays in the range of [int], which it does on inputs of at
    most [input_bound] bytes ([int_arithmetic_in_range]).  On longer inputs
    the C program can overflow an [int] ([count], [label_counter],
    [loop_stack_size]), and there the integers of this development are no
    longer its values: the statements that speak of counts, label numbers,
    capacities or of how a compilation ends are made for inputs within
    that bound.  Allocation is taken to succeed, as the C program takes
    it. *)

From Stdlib Require Import Ascii String ZArith Lia.
From stdpp Require Import base numbers list strings pretty gmap.

Local Open Scope Z_scope.

(** ** Text of the emitted assembly *)

Definition nl : string := String "010"%char EmptyString.

(** One record per [fprintf] to the output file.  The constructors with an
    argument are the format strings with a [%d] conversion. *)
Inductive asm : Type :=
  | Verbatim (s : string)
  | ZeroDirective (n : Z)
  | IncB
  | DecB
  | IncQ
  | DecQ
  | AddB (count : Z)
  | SubB (count : Z)
  | AddQ (count : Z)
  | SubQ (count : Z)
  | LoopStartDef (label : Z)
  | JeLoopEnd (label : Z)
  | JneLoopStart (label : Z)
  | LoopEndDef (label : Z).

(** [%d] of an [int]. *)
Definition fmt_d (n : Z) : string := pretty n.

Definition render (a : asm) : string :=
  match a with
  | Verbatim s => s
  | ZeroDirective n => "    .zero " +:+ fmt_d n +:+ nl +:+ nl
  | IncB => "    incb (%r12)         # +" +:+ nl
  | DecB => "    decb (%r12)         # -" +:+ nl
  | IncQ => "    incq %r12           # >" +:+ nl
  | DecQ => "    decq %r12           # <" +:+ nl
  | AddB n => "    addb $" +:+ fmt_d n +:+ ", (%r12)    # + x" +:+ fmt_d n +:+ nl
  | SubB n => "    subb $" +:+ fmt_d n +:+ ", (%r12)    # - x" +:+ fmt_d n +:+ nl
  | AddQ n => "    addq $" +:+ fmt_d n +:+ ", %r12      # > x" +:+ fmt_d n +:+ nl
  | SubQ n => "    subq $" +:+ fmt_d n +:+ ", %r12      # < x" +:+ fmt_d n +:+ nl
  | LoopStartDef l => "loop_start_" +:+ fmt_d l +:+ ":           # [" +:+ nl
  | JeLoopEnd l => "    je loop_end_" +:+ fmt_d l +:+ nl +:+ nl
  | JneLoopStart l => "    jne loop_start_" +:+ fmt_d l +:+ "    # ]" +:+ nl
  | LoopEndDef l => "loop_end_" +:+ fmt_d l +:+ ":" +:+ nl +:+ nl
  end.

Definition render_all (out : list asm) : string :=
  foldr (λ a s, render a +:+ s) EmptyString out.

(** ** The two structs *)

Definition MEMORY_SIZE : Z := 30000.

(** [Source]: [code] is the byte buffer filled by [read_source], whose
    [length] field is the number of bytes read; [position] is the cursor. *)
Record Source : Type := mkSource {
  code : list ascii;
  position : nat
}.

Definition Source_length (src : Source) : nat := List.length (code src).

Definition set_position (src : Source) (p : nat) : Source :=
  {| code := code src; position := p |}.

(** [Compiler]: [output] is the sequence of records written so far;
    [loop_stack] is the heap array of [loop_stack_size] ints, of which the
    slots [0 .. loop_stack_top] are in use. *)
Record Compiler : Type := mkCompiler {
  output : list asm;
  label_counter : Z;
  loop_stack : list Z;
  loop_stack_top : Z;
  loop_stack_size : Z
}.

Inductive result (A : Type) : Type :=
  | Ok (a : A)
  | Exit (msg : string) (pos : Z) (c : Compiler).
Arguments Ok {A} a.
Arguments Exit {A} msg pos c.

Definition bind {A B : Type} (r : result A) (k : A → result B) : result B :=
  match r with
  | Ok a => k a
  | Exit msg pos c => Exit msg pos c
  end.

(** [error]: the message goes to stderr and the process exits. *)
Definition error {A : Type} (msg : string) (pos : Z) (c : Compiler) : result A :=
  Exit msg pos c.

Definition Unmatched_close : string := "Unmatched ']'".
Definition Unmatched_open : string := "Unmatched '['".

(** [create_compiler]: counter 0, an array of 100 ints, top -1.  The slots
    of a fresh [malloc] block are indeterminate; they are written before
    they are read, and stand here as 0. *)
Definition create_compiler : Compiler :=
  {| output := [];
     label_counter := 0;
     loop_stack := replicate 100 0;
     loop_stack_top := -1;
     loop_stack_size := 100 |}.

Definition fprintf (c : Compiler) (a : asm) : Compiler :=
  {| output := output c ++ [a];
     label_counter := label_counter c;
     loop_stack := loop_stack c;
     loop_stack_top := loop_stack_top c;
     loop_stack_size := loop_stack_size c |}.

(** [realloc] to [n] ints keeps the old slots and adds indeterminate ones. *)
Definition realloc (a : list Z) (n : Z) : list Z := resize (Z.to_nat n) 0 a.

(** [push_loop]: [loop_stack_size *= 2] is the product in [Z], which is
    the [int] of the C program while it is at most [INT_MAX]. *)
Definition push_loop (c : Compiler) (label : Z) : Compiler :=
  let size :=
    if bool_decide (loop_stack_top c >= loop_stack_size c - 1)
    then loop_stack_size c * 2 else loop_stack_size c in
  let arr :=
    if bool_decide (loop_stack_top c >= loop_stack_size c - 1)
    then realloc (loop_stack c) size else loop_stack c in
  let top := loop_stack_top c + 1 in
  {| output := output c;
     label_counter := label_counter c;
     loop_stack := <[Z.to_nat top := label]> arr;
     loop_stack_top := top;
     loop_stack_size := size |}.

Definition pop_loop (c : Compiler) : result (Z * Compiler) :=
  if bool_decide (loop_stack_top c < 0) then error Unmatched_close 0 c
  else
    Ok (loop_stack c !!! Z.to_nat (loop_stack_top c),
        {| output := output c;
           label_counter := label_counter c;
           loop_stack := loop_stack c;
           loop_stack_top := loop_stack_top c - 1;
           loop_stack_size := loop_stack_size c |}).

(** [next_label]: [label_counter++] is the successor in [Z], which is the
    [int] of the C program while it is at most [INT_MAX]. *)
Definition next_label (c : Compiler) : Z * Compiler :=
  (label_counter c,
   {| output := output c;
      label_counter := label_counter c + 1;
      loop_stack := loop_stack c;
      loop_stack_top := loop_stack_top c;
      loop_stack_size := loop_stack_size c |}).

Definition header : list asm :=
  [ Verbatim ("    .section .data" +:+ nl);
    Verbatim ("memory:" +:+ nl);
    ZeroDirective MEMORY_SIZE;
    Verbatim ("    .section .text" +:+ nl);
    Verbatim ("    .globl _start" +:+ nl +:+ nl);
    Verbatim ("_start:" +:+ nl);
    Verbatim ("    # Initialize data pointer in r12" +:+ nl);
    Verbatim ("    leaq memory(%rip), %r12" +:+ nl +:+ nl) ].

Definition footer : list asm :=
  [ Verbatim (nl +:+ "    # Exit program" +:+ nl);
    Verbatim ("    movq $60, %rax      # sys_exit" +:+ nl);
    Verbatim ("    xorq %rdi, %rdi    # exit code 0" +:+ nl);
    Verbatim ("    syscall" +:+ nl) ].

Definition output_seq : list asm :=
  [ Verbatim ("    # Output character (.)" +:+ nl);
    Verbatim ("    movq $1, %rax       # sys_write" +:+ nl);
    Verbatim ("    movq $1, %rdi       # stdout" +:+ nl);
    Verbatim ("    movq %r12, %rsi    # buffer" +:+ nl);
    Verbatim ("    movq $1, %rdx       # length" +:+ nl);
    Verbatim ("    syscall" +:+ nl +:+ nl) ].

Definition input_seq : list asm :=
  [ Verbatim ("    # Input character (,)" +:+ nl);
    Verbatim ("    movq $0, %rax       # sys_read" +:+ nl);
    Verbatim ("    movq $0, %rdi       # stdin" +:+ nl);
    Verbatim ("    movq %r12, %rsi    # buffer" +:+ nl);
    Verbatim ("    movq $1, %rdx       # length" +:+ nl);
    Verbatim ("    syscall" +:+ nl +:+ nl) ].

(** A run of [fprintf] calls, in order. *)
Definition fprintfs (c : Compiler) (l : list asm) : Compiler :=
  foldl fprintf c l.

Definition emit_header (c : Compiler) : Compiler := fprintfs c header.
Definition emit_footer (c : Compiler) : Compiler := fprintfs c footer.

(** [compile_instruction]: the [switch] has no [default]; a character
    that matches no [case] leaves the compiler as it is. *)
Definition compile_instruction (c : Compiler) (instruction : ascii)
  : result Compiler :=
  if decide (instruction = "+"%char) then Ok (fprintf c IncB)
  else if decide (instruction = "-"%char) then Ok (fprintf c DecB)
  else if decide (instruction = ">"%char) then Ok (fprintf c IncQ)
  else if decide (instruction = "<"%char) then Ok (fprintf c DecQ)
  else if decide (instruction = "."%char) then Ok (fprintfs c output_seq)
  else if decide (instruction = ","%char) then Ok (fprintfs c input_seq)
  else if decide (instruction = "["%char) then
    let '(label, c1) := next_label c in
    let c2 := push_loop c1 label in
    Ok (fprintfs c2 [LoopStartDef label;
                     Verbatim ("    cmpb $0, (%r12)" +:+ nl);
                     JeLoopEnd label])
  else if decide (instruction = "]"%char) then
    bind (pop_loop c) (λ '(label, c1),
      Ok (fprintfs c1 [Verbatim ("    cmpb $0, (%r12)" +:+ nl);
                       JneLoopStart label;
                       LoopEndDef label]))
  else Ok c.

(** [count_repeats]: the [while] loop walks the bytes from [src->position]
    on and stops at the end of the buffer or at the first other byte.
    [count++] is the successor in [Z], which is the [int] of the C program
    while the run has at most [INT_MAX] bytes. *)
Fixpoint count_while (rest : list ascii) (instruction : ascii) (count : Z) : Z :=
  match rest with
  | ch :: rest' =>
      if decide (ch = instruction) then count_while rest' instruction (count + 1)
      else count
  | [] => count
  end.

Definition count_repeats (src : Source) (instruction : ascii) : Z :=
  count_while (drop (position src) (code src)) instruction 0.

Definition foldable (instruction : ascii) : bool :=
  bool_decide (instruction = "+"%char) || bool_decide (instruction = "-"%char)
  || bool_decide (instruction = ">"%char) || bool_decide (instruction = "<"%char).

Definition compile_optimized (c : Compiler) (src : Source) (instruction : ascii)
  : result (Compiler * Source) :=
  let count := count_repeats src instruction in
  if bool_decide (count > 1) && foldable instruction then
    let c' :=
      if decide (instruction = "+"%char) then fprintf c (AddB count)
      else if decide (instruction = "-"%char) then fprintf c (SubB count)
      else if decide (instruction = ">"%char) then fprintf c (AddQ count)
      else if decide (instruction = "<"%char) then fprintf c (SubQ count)
      else c in
    Ok (c', set_position src (position src + Z.to_nat (count - 1))%nat)
  else
    bind (compile_instruction c instruction) (λ c', Ok (c', src)).

(** [strchr (s, ch) != NULL].  The terminating null character is part of
    the string, so looking for the null character succeeds. *)
Fixpoint strchr (s : string) (ch : ascii) : bool :=
  match s with
  | EmptyString => bool_decide (ch = "000"%char)
  | String a s' => if decide (a = ch) then true else strchr s' ch
  end.

(** One iteration of the [while] loop of [compile]; [ch] is
    [src->code[src->position]]. *)
Definition loop_body (c : Compiler) (src : Source) (ch : ascii)
  : result (Compiler * Source) :=
  bind (if strchr "+-><.,[]" ch then compile_optimized c src ch else Ok (c, src))
       (λ '(c', src'), Ok (c', set_position src' (position src' + 1)%nat)).

(** The [while] loop of [compile].  [None] means that the iterations
    allowed by [fuel] did not reach the end of the loop. *)
Fixpoint compile_loop (fuel : nat) (c : Compiler) (src : Source)
  : option (result (Compiler * Source)) :=
  match code src !! position src with
  | None => Some (Ok (c, src))
  | Some ch =>
      match fuel with
      | O => None
      | S fuel' =>
          match loop_body c src ch with
          | Ok (c', src') => compile_loop fuel' c' src'
          | Exit msg pos c' => Some (Exit msg pos c')
          end
      end
  end.

(** After the loop: the check for open loops, then the footer. *)
Definition compile_end (c : Compiler) : result Compiler :=
  if bool_decide (loop_stack_top c >= 0) then error Unmatched_open 0 c
  else Ok (emit_footer c).

(** [compile]: header, loop, check, footer. *)
Definition compile (fuel : nat) (c : Compiler) (src : Source)
  : option (result Compiler) :=
  match compile_loop fuel (emit_header c) src with
  | None => None
  | Some (Ok (c', _)) => Some (compile_end c')
  | Some (Exit msg pos c') => Some (Exit msg pos c')
  end.

(** [main] after the plumbing: [compile] on a fresh compiler and the
    source at position 0.  One iteration per byte is always enough
    ([compile_loop_enough]). *)
Definition compile_source (bytes : list ascii) : option (result Compiler) :=
  compile (List.length bytes) create_compiler (mkSource bytes 0).

Definition bf (s : string) : list ascii := list_ascii_of_string s.

(** ** The loop stack seen as a list

    The slots [0 .. loop_stack_top] of the array, innermost loop first. *)
Definition stack_view (c : Compiler) : list Z :=
  reverse (take (Z.to_nat (loop_stack_top c + 1)) (loop_stack c)).

(** The shape [create_compiler] sets up and [push_loop]/[pop_loop] keep:
    the top index stays inside the array, whose length is the recorded size. *)
Record stack_ok (c : Compiler) : Prop := mk_stack_ok {
  top_lower : -1 ≤ loop_stack_top c;
  top_upper : loop_stack_top c < loop_stack_size c;
  size_pos : 0 < loop_stack_size c;
  size_array : Z.of_nat (List.length (loop_stack c)) = loop_stack_size c
}.

(** ** Vocabulary of the statements *)

(** The largest [int]. *)
Definition INT_MAX : Z := 2147483647.

(** The longest input on which no [int] of the program overflows
    ([int_arithmetic_in_range]): [100 * 2^24] bytes.  The first [int] to
    overflow is [loop_stack_size], when an array of that many slots is
    full and one more [[] is pushed. *)
Definition input_bound : Z := 1677721600.

(** The eight instruction characters. *)
Definition is_instruction (ch : ascii) : bool :=
  bool_decide (ch = "+"%char) || bool_decide (ch = "-"%char)
  || bool_decide (ch = ">"%char) || bool_decide (ch = "<"%char)
  || bool_decide (ch = "."%char) || bool_decide (ch = ","%char)
  || bool_decide (ch = "["%char) || bool_decide (ch = "]"%char).

(** The record [compile_instruction] writes for one of [+ - > <]. *)
Definition unit_op (instruction : ascii) : asm :=
  if decide (instruction = "+"%char) then IncB
  else if decide (instruction = "-"%char) then DecB
  else if decide (instruction = ">"%char) then IncQ
  else DecQ.

(** The record [compile_optimized] writes for a run of more than one. *)
Definition folded_op (instruction : ascii) (count : Z) : asm :=
  if decide (instruction = "+"%char) then AddB count
  else if decide (instruction = "-"%char) then SubB count
  else if decide (instruction = ">"%char) then AddQ count
  else SubQ count.

Definition run_op (instruction : ascii) (count : Z) : asm :=
  if bool_decide (count > 1) then folded_op instruction count
  else unit_op instruction.

(** The records [compile_instruction] writes for [[] and for []]. *)
Definition loop_open_records (label : Z) : list asm :=
  [LoopStartDef label; Verbatim ("    cmpb $0, (%r12)" +:+ nl); JeLoopEnd label].

Definition loop_close_records (label : Z) : list asm :=
  [Verbatim ("    cmpb $0, (%r12)" +:+ nl); JneLoopStart label; LoopEndDef label].

(** Number of leading bytes of [l] equal to [ch]. *)
Fixpoint run (ch : ascii) (l : list ascii) : nat :=
  match l with
  | x :: l' => if decide (x = ch) then S (run ch l') else O
  | [] => O
  end.

(** The states of the [while] loop of [compile] on the input [bytes]:
    the state at entry, and the state after each completed iteration. *)
Inductive scan_state (bytes : list ascii) : Compiler → Source → Prop :=
  | scan_start :
      scan_state bytes (emit_header create_compiler) (mkSource bytes 0)
  | scan_next c src ch c' src' :
      scan_state bytes c src →
      code src !! position src = Some ch →
      loop_body c src ch = Ok (c', src') →
      scan_state bytes c' src'.

(** ** Meaning of the emitted arithmetic *)

(** Modelled from the spec: the target machine, which the repository does
    not contain.  A cell is one byte wide, so cell arithmetic is modulo
    256 (the byte forms [incb], [decb], [addb], [subb] on the cell
    addressed by the pointer register); pointer movement is integer
    arithmetic on the pointer register with no bounds check ([incq],
    [decq], [addq], [subq] on [%r12]).  The tape maps addresses to bytes;
    an address never written holds 0. *)
Record machine : Type := mkMachine {
  r12 : Z;
  tape : gmap Z Z
}.

Definition cell (m : machine) : Z := default 0 (tape m !! r12 m).

Definition set_cell (m : machine) (v : Z) : machine :=
  {| r12 := r12 m; tape := <[r12 m := v]> (tape m) |}.

Definition set_r12 (m : machine) (p : Z) : machine :=
  {| r12 := p; tape := tape m |}.

(** Modelled from the spec: what one record does to the machine.  The
    records other than the eight arithmetic ones (labels, jumps, system
    calls) are outside this fragment and leave the machine as it is. *)
Definition exec (a : asm) (m : machine) : machine :=
  match a with
  | IncB => set_cell m ((cell m + 1) mod 256)
  | DecB => set_cell m ((cell m - 1) mod 256)
  | AddB n => set_cell m ((cell m + n) mod 256)
  | SubB n => set_cell m ((cell m - n) mod 256)
  | IncQ => set_r12 m (r12 m + 1)
  | DecQ => set_r12 m (r12 m - 1)
  | AddQ n => set_r12 m (r12 m + n)
  | SubQ n => set_r12 m (r12 m - n)
  | _ => m
  end.

Definition run_asm (l : list asm) (m : machine) : machine :=
  foldl (λ m a, exec a m) m l.

(** [n] calls of [compile_instruction] in a row, as the unfolded form of a
    run would make them. *)
Definition compile_units (c : Compiler) (instruction : ascii) (n : nat)
  : result Compiler :=
  Nat.iter n (λ r, bind r (λ c', compile_instruction c' instruction)) (Ok c).

(** ** Bracket structure of a source text *)

Definition bracket_delta (ch : ascii) : Z :=
  if decide (ch = "["%char) then 1
  else if decide (ch = "]"%char) then -1
  else 0.

(** Nesting depth after [w]: opening brackets minus closing brackets. *)
Definition depth (w : list ascii) : Z :=
  foldr (λ ch d, bracket_delta ch + d) 0 w.

(** Starting at depth [d], no prefix of [w] closes more than is open. *)
Fixpoint never_below (d : Z) (w : list ascii) : bool :=
  match w with
  | [] => true
  | ch :: w' =>
      bool_decide (0 ≤ d + bracket_delta ch)
      && never_below (d + bracket_delta ch) w'
  end.

(** Number of [[] in [w]. *)
Definition count_open (w : list ascii) : nat :=
  List.length (filter (λ ch, ch = "["%char) w).

(** Texts in which every bracket has its partner. *)
Inductive balanced : list ascii → Prop :=
  | balanced_nil : balanced []
  | balanced_plain ch w :
      ch ≠ "["%char → ch ≠ "]"%char → balanced w → balanced (ch :: w)
  | balanced_loop u w :
      balanced u → balanced w → balanced ("["%char :: u ++ "]"%char :: w).

(** [open_loops w s]: [w] is a text whose open, not yet closed loops have
    the labels [s], innermost first.  Such a text is a balanced text, or a
    text with open loops [s'] followed by one more [[] and a balanced
    text; the label of that [[] is the number of [[] before it. *)
Inductive open_loops : list ascii → list Z → Prop :=
  | open_none w : balanced w → open_loops w []
  | open_more w s b :
      open_loops w s → balanced b →
      open_loops (w ++ "["%char :: b) (Z.of_nat (count_open w) :: s).

(** The labels in the output, in the order they are written. *)
Definition start_label (a : asm) : option Z :=
  match a with LoopStartDef l => Some l | _ => None end.
Definition end_label (a : asm) : option Z :=
  match a with LoopEndDef l => Some l | _ => None end.
Definition je_target (a : asm) : option Z :=
  match a with JeLoopEnd l => Some l | _ => None end.
Definition jne_target (a : asm) : option Z :=
  match a with JneLoopStart l => Some l | _ => None end.

Definition start_labels (out : list asm) : list Z := omap start_label out.
Definition end_labels (out : list asm) : list Z := omap end_label out.
Definition je_targets (out : list asm) : list Z := omap je_target out.
Definition jne_targets (out : list asm) : list Z := omap jne_target out.

(** The state after [k] more iterations of the loop, if the loop makes
    that many. *)
Fixpoint iterate (k : nat) (c : Compiler) (src : Source)
  : option (Compiler * Source) :=
  match k with
  | O => Some (c, src)
  | S k' =>
      match code src !! position src with
      | Some ch =>
          match loop_body c src ch with
          | Ok (c', src') => iterate k' c' src'
          | Exit _ _ _ => None
          end
      | None => None
      end
  end.

(** ** Removing bytes from a source text *)

Definition is_noise (ch : ascii) : bool := negb (is_instruction ch).
Definition is_nul (ch : ascii) : bool := bool_decide (ch = "000"%char).

(** The text without the bytes that [gone] selects. *)
Definition strip (gone : ascii → bool) (l : list ascii) : list ascii :=
  filter (λ ch, gone ch = false) l.

(** The first byte of [l] that [gone] does not select. *)
Fixpoint next_kept (gone : ascii → bool) (l : list ascii) : option ascii :=
  match l with
  | [] => None
  | x :: l' => if gone x then next_kept gone l' else Some x
  end.

(** No selected bytes lie between two equal bytes among [+ - > <]: a kept
    foldable byte is not followed by a selected byte and then, as the next
    kept byte, by itself. *)
Fixpoint unsplit (gone : ascii → bool) (l : list ascii) : bool :=
  match l with
  | [] => true
  | ch :: rest =>
      negb (foldable ch && negb (gone ch)
            && match rest with x :: _ => gone x | [] => false end
            && bool_decide (next_kept gone rest = Some ch))
      && unsplit gone rest
  end.

(** [inserted p q]: [q] is [p] with bytes that are no instructions
    inserted at any positions. *)
Inductive inserted : list ascii → list ascii → Prop :=
  | inserted_nil : inserted [] []
  | inserted_same x p q : inserted p q → inserted (x :: p) (x :: q)
  | inserted_noise x p q :
      is_instruction x = false → inserted p q → inserted p (x :: q).

(** The loop of [compile] as a function of the bytes from the cursor on:
    the compiler after the loop, or the exit ([compile_loop_scan]). *)
Fixpoint scan (fuel : nat) (c : Compiler) (l : list ascii)
  : option (result Compiler) :=
  match l with
  | [] => Some (Ok c)
  | ch :: rest =>
      match fuel with
      | O => None
      | S fuel' =>
          if foldable ch then
            scan fuel' (fprintf c (run_op ch (Z.of_nat (S (run ch rest)))))
                 (drop (run ch rest) rest)
          else
            match compile_instruction c ch with
            | Ok c' => scan fuel' c' rest
            | Exit msg pos c' => Some (Exit msg pos c')
            end
      end
  end.

Definition loop_result (r : result (Compiler * Source)) : result Compiler :=
  match r with
  | Ok (c, _) => Ok c
  | Exit msg pos c => Exit msg pos c
  end.

(** What every state of the scan on [bytes] satisfies ([scan_state_inv]):
    the stack is well formed and holds the labels of the loops open in the
    scanned prefix; the counter is the number of [[] scanned; the start
    labels written so far are [0 .. counter-1] in order; every label is
    either still on the stack or has its end label written; and the jumps
    go to the labels of their own loop. *)
Record scan_inv (bytes : list ascii) (c : Compiler) (src : Source) : Prop :=
  mk_scan_inv {
  inv_stack_ok : stack_ok c;
  inv_open : open_loops (take (position src) bytes) (stack_view c);
  inv_counter :
    label_counter c = Z.of_nat (count_open (take (position src) bytes));
  inv_starts : start_labels (output c) = seqZ 0 (label_counter c);
  inv_ends : end_labels (output c) ++ stack_view c ≡ₚ seqZ 0 (label_counter c);
  inv_je : je_targets (output c) = start_labels (output c);
  inv_jne : jne_targets (output c) = end_labels (output c)
}.

(** ** The loop on a whole text *)

(** The loop of [compile] on the text [l] from its first byte, with one
    iteration allowed per byte, which is always enough ([scan_fuel]). *)
Definition scan_all (c : Compiler) (l : list ascii) : option (result Compiler) :=
  scan (List.length l) c l.

(** The end of [l1] and the start of [l2] are not one run: the last byte
    of [l1] and the first byte of [l2] are not the same byte among
    [+ - > <]. *)
Definition no_join (l1 l2 : list ascii) : bool :=
  match last l1, head l2 with
  | Some a, Some b => negb (foldable a && bool_decide (a = b))
  | _, _ => true
  end.

(** The records [compile_instruction] writes for [.] and for [,]. *)
Definition io_records (ch : ascii) : list asm :=
  if decide (ch = "."%char) then output_seq
  else if decide (ch = ","%char) then input_seq
  else [].

(** The loop of [compile] on a source at position 0, keeping the compiler
    it ends with (or the exit). *)
Definition run_loop (c : Compiler) (bytes : list ascii)
  : option (result Compiler) :=
  loop_result <$> compile_loop (List.length bytes) c (mkSource bytes 0).

(** ** Shape of the output *)

Global Instance asm_eq_dec : EqDecision asm.
Proof. solve_decision. Defined.

(** A record that is neither a line of the header nor a line of the
    footer. *)
Definition body_record (a : asm) : Prop := a ∉ header ++ footer.

(** A record that is no label and no jump. *)
Definition plain_record (a : asm) : Prop :=
  start_label a = None ∧ end_label a = None
  ∧ je_target a = None ∧ jne_target a = None.

(** Outputs whose loops are whole and nested: a loop is the three records
    of a [[] with some label, a structured part, and the three records of
    a []] with the same label. *)
Inductive structured : list asm → Prop :=
  | structured_nil : structured []
  | structured_plain a l :
      plain_record a → structured l → structured (a :: l)
  | structured_loop k u l :
      structured u → structured l →
      structured (loop_open_records k ++ u ++ loop_close_records k ++ l).

(** Outputs with whole loops and, around them, the started loops [s]
    (innermost first) whose closing records are still to come. *)
Inductive structured_open : list asm → list Z → Prop :=
  | structured_open_none l : structured l → structured_open l []
  | structured_open_more l s k u :
      structured_open l s → structured u →
      structured_open (l ++ loop_open_records k ++ u) (k :: s).

(** The kinds of records the header and the footer are made of. *)
Definition frame_kind (a : asm) : Prop :=
  match a with Verbatim _ | ZeroDirective _ => True | _ => False end.

(** What the output is in every state of the scan ([scan_state_output]):
    the header, then records that are no header or footer lines; and its
    loops are whole and nested, up to the started loops on the stack. *)
Record output_inv (c : Compiler) : Prop := mk_output_inv {
  out_frame : ∃ body, output c = header ++ body ∧ Forall body_record body;
  out_structured : structured_open (output c) (stack_view c)
}.

(** ** Text of the output *)

(** [occurs needle hay]: the text [needle] stands somewhere in [hay]. *)
Fixpoint occurs (needle hay : string) : bool :=
  String.prefix needle hay
  || match hay with
     | EmptyString => false
     | String _ hay' => occurs needle hay'
     end.

(** [char_in a s]: the character [a] is one of the characters of [s]. *)
Fixpoint char_in (a : ascii) (s : string) : bool :=
  match s with
  | EmptyString => false
  | String b s' => bool_decide (a = b) || char_in a s'
  end.

(** No character of [s] is a character of [needle]. *)
Fixpoint chars_outside (needle s : string) : bool :=
  match s with
  | EmptyString => true
  | String a s' => negb (char_in a needle) && chars_outside needle s'
  end.

(** The characters [%d] writes. *)
Definition digit_like (a : ascii) : bool := char_in a "0123456789-".

Fixpoint all_digit_like (s : string) : bool :=
  match s with
  | EmptyString => true
  | String a s' => digit_like a && all_digit_like s'
  end.

(** The records an iteration of the scan can write: the record of a run,
    a record of the two system call sequences, a record of a [[] or of a
    []]. *)
Definition emitted (a : asm) : Prop :=
  (∃ ch n, a = run_op ch n)
  ∨ a ∈ output_seq ∨ a ∈ input_seq
  ∨ (∃ k, a ∈ loop_open_records k ∨ a ∈ loop_close_records k).

(** A record whose text is some text without "sys_exit", then a newline. *)
Definition quiet (a : asm) : Prop :=
  ∃ t, render a = t +:+ nl ∧ occurs "sys_exit" t = false.

(** The size of the loop stack array in every state of the scan
    ([scan_state_capacity]): 100 doubled some number of times, and still
    100 or at most twice the number of labels handed out before the last
    one. *)
Definition capacity_ok (c : Compiler) : Prop :=
  (∃ k : nat, loop_stack_size c = 100 * 2 ^ Z.of_nat k)
  ∧ (loop_stack_size c = 100 ∨ loop_stack_size c ≤ 2 * label_counter c - 2).

(** ** The rest of the program *)

(** [error]: the line written to stderr before [exit(1)]. *)
Definition error_text (msg : string) (pos : Z) : string :=
  "Error at position " +:+ fmt_d pos +:+ ": " +:+ msg +:+ nl.

(** A file as [read_source] meets it: [contents] are the bytes [fread]
    delivers from its start, [told] is what [ftell] returns after
    [fseek (f, 0, SEEK_END)].  For a regular file [told] is the number of
    its bytes; for a pipe it is -1; for some special files it is 0
    whatever they deliver. *)
Record File : Type := mkFile {
  contents : list ascii;
  told : Z
}.

(** What the program meets outside itself: the files that [fopen] opens
    for reading, and the paths that [fopen] opens for writing. *)
Record World : Type := mkWorld {
  files : gmap string File;
  writable : string → bool
}.

(** What a run of the program leaves: the exit status, the text on stdout
    and on stderr, and the output file if it was opened, with the text
    the program has written to it when the process ends ([exit] and
    [fclose] both flush it). *)
Record Run : Type := mkRun {
  status : Z;
  stdout : string;
  stderr : string;
  written : option (string * string)
}.

(** How [read_source] ends. *)
Inductive opened : Type :=
  | No_file
  | Read (src : Source)
  | Unfilled.

(** [read_source].  [No_file]: [fopen] fails, the function reports it and
    leaves the process.  Otherwise [size] is [told]; the buffer has
    [size + 1] bytes, [fread] is asked for [size] bytes and its result is
    not looked at, and [length] is [size].  When [size] is between 0 and
    the number of bytes the file delivers, the buffer holds the first
    [size] bytes of the file: [Read], with the cursor at 0.  Otherwise
    ([Unfilled]) the bytes up to [length] are not those of the file: with
    a negative [size] the function writes outside the buffer, with a
    [size] beyond the file the rest of the buffer is indeterminate. *)
Definition read_source (w : World) (filename : string) : opened :=
  match files w !! filename with
  | None => No_file
  | Some f =>
      if bool_decide (0 ≤ told f ≤ Z.of_nat (List.length (contents f)))
      then Read (mkSource (take (Z.to_nat (told f)) (contents f)) 0)
      else Unfilled
  end.

Definition usage (prog : string) : string :=
  "Usage: " +:+ prog +:+ " <input.bf> [output.s]" +:+ nl
  +:+ "Compiles Brainfuck code to x86-64 assembly" +:+ nl.

Definition banner (input_file output_file : string) : string :=
  "Brainfuck Compiler" +:+ nl
  +:+ "Input:  " +:+ input_file +:+ nl
  +:+ "Output: " +:+ output_file +:+ nl.

Definition success_text (output_file : string) : string :=
  "Compilation successful!" +:+ nl
  +:+ nl +:+ "To assemble and run:" +:+ nl
  +:+ "  as " +:+ output_file +:+ " -o output.o" +:+ nl
  +:+ "  ld output.o -o program" +:+ nl
  +:+ "  ./program" +:+ nl.

(** [argc > 2 ? argv[2] : "output.s"], on the arguments after the input
    file. *)
Definition output_name (more : list string) : string :=
  match more with
  | o :: _ => o
  | [] => "output.s"
  end.

(** [main] on the argument vector [argv], whose length is [argc].  The
    input is read before the output is opened; an unmatched bracket ends
    the process inside [compile], after the output file was opened.
    [None] stands for a run this development gives no result for: an
    empty [argv] (the usage line would print a null [argv[0]]), a buffer
    that is not the file ([Unfilled]), or a loop of [compile] that did
    not end, which does not happen ([compile_loop_enough]). *)
Definition main (w : World) (argv : list string) : option Run :=
  match argv with
  | [] => None
  | [prog] =>
      Some {| status := 1; stdout := ""; stderr := usage prog; written := None |}
  | _ :: input_file :: more =>
      let output_file := output_name more in
      match read_source w input_file with
      | No_file =>
          Some {| status := 1;
                  stdout := banner input_file output_file;
                  stderr := "Could not open file: " +:+ input_file +:+ nl;
                  written := None |}
      | Unfilled => None
      | Read src =>
          if writable w output_file then
            match compile (Source_length src) create_compiler src with
            | None => None
            | Some (Ok c) =>
                Some {| status := 0;
                        stdout := banner input_file output_file
                                  +:+ success_text output_file;
                        stderr := "";
                        written := Some (output_file, render_all (output c)) |}
            | Some (Exit msg pos c) =>
                Some {| status := 1;
                        stdout := banner input_file output_file;
                        stderr := error_text msg pos;
                        written := Some (output_file, render_all (output c)) |}
            end
          else
            Some {| status := 1;
                    stdout := banner input_file output_file;
                    stderr := "Could not open output file: "
                              +:+ output_file +:+ nl;
                    written := None |}
      end
  end.

(* ================================================================= *)
(** * Properties *)

(** ** Output records *)

Lemma output_fprintf c a : output (fprintf c a) = output c ++ [a].
Proof. reflexivity. Qed.

Lemma output_fprintfs l : ∀ c, output (fprintfs c l) = output c ++ l.
Proof.
  induction l as [|a l IH]; intros c; simpl.
  - by rewrite app_nil_r.
  - rewrite IH, output_fprintf, <- app_assoc. reflexivity.
Qed.

Lemma fprintfs_fields l :
  ∀ c, label_counter (fprintfs c l) = label_counter c
     ∧ loop_stack (fprintfs c l) = loop_stack c
     ∧ loop_stack_top (fprintfs c l) = loop_stack_top c
     ∧ loop_stack_size (fprintfs c l) = loop_stack_size c.
Proof.
  induction l as [|a l IH]; intros c; simpl; [done|].
  destruct (IH (fprintf c a)) as (-> & -> & -> & ->). done.
Qed.

Lemma stack_view_fprintfs c l : stack_view (fprintfs c l) = stack_view c.
Proof.
  unfold stack_view.
  destruct (fprintfs_fields l c) as (_ & -> & -> & _). reflexivity.
Qed.

Lemma stack_ok_fprintfs c l : stack_ok c → stack_ok (fprintfs c l).
Proof.
  intros [H1 H2 H3 H4].
  destruct (fprintfs_fields l c) as (_ & Ha & Ht & Hs).
  split; rewrite ?Ha, ?Ht, ?Hs; done.
Qed.

Lemma stack_view_fprintf c a : stack_view (fprintf c a) = stack_view c.
Proof. reflexivity. Qed.

Lemma stack_ok_fprintf c a : stack_ok c → stack_ok (fprintf c a).
Proof. intros [H1 H2 H3 H4]. split; done. Qed.

(** ** The array implements a stack *)

Lemma stack_ok_create : stack_ok create_compiler.
Proof. split; simpl; lia. Qed.

Lemma stack_view_length c :
  stack_ok c → Z.of_nat (List.length (stack_view c)) = loop_stack_top c + 1.
Proof.
  intros [H1 H2 H3 H4]. unfold stack_view.
  rewrite length_reverse, length_take. lia.
Qed.

(** The write of [push_loop] is inside the array, also right after growth. *)
Lemma push_loop_in_bounds c label :
  stack_ok c →
  (Z.to_nat (loop_stack_top (push_loop c label))
     < List.length (loop_stack (push_loop c label)))%nat.
Proof.
  intros [H1 H2 H3 H4]. unfold push_loop; simpl.
  rewrite length_insert.
  case_bool_decide; [unfold realloc; rewrite length_resize|]; lia.
Qed.

Lemma push_loop_ok c label : stack_ok c → stack_ok (push_loop c label).
Proof.
  intros [H1 H2 H3 H4]. unfold push_loop.
  split; simpl; rewrite ?length_insert;
    repeat case_bool_decide; unfold realloc; rewrite ?length_resize; lia.
Qed.

Lemma stack_view_push c label :
  stack_ok c → stack_view (push_loop c label) = label :: stack_view c.
Proof.
  intros [H1 H2 H3 H4]. unfold stack_view, push_loop; simpl.
  set (arr := if bool_decide _ then _ else _).
  assert (Hlen : (Z.to_nat (loop_stack_top c + 1) < List.length arr)%nat).
  { subst arr. case_bool_decide; [unfold realloc; rewrite length_resize|]; lia. }
  assert (Hold : take (Z.to_nat (loop_stack_top c + 1)) arr
                 = take (Z.to_nat (loop_stack_top c + 1)) (loop_stack c)).
  { subst arr. case_bool_decide; [|done].
    unfold realloc. rewrite resize_spec, take_app_le, take_take.
    - f_equal. lia.
    - rewrite length_take. lia. }
  replace (Z.to_nat (loop_stack_top c + 1 + 1))
    with (S (Z.to_nat (loop_stack_top c + 1))) by lia.
  rewrite (take_S_r _ _ label) by (by apply list_lookup_insert_eq).
  rewrite take_insert_ge by lia.
  by rewrite reverse_snoc, Hold.
Qed.

Lemma pop_loop_empty c :
  stack_ok c → stack_view c = [] → pop_loop c = Exit Unmatched_close 0 c.
Proof.
  intros Hok Hv. pose proof (stack_view_length c Hok) as Hl.
  rewrite Hv in Hl; simpl in Hl. unfold pop_loop.
  rewrite bool_decide_eq_true_2 by lia. reflexivity.
Qed.

Lemma pop_loop_cons c label s :
  stack_ok c → stack_view c = label :: s →
  ∃ c', pop_loop c = Ok (label, c') ∧ stack_view c' = s ∧ stack_ok c'
        ∧ output c' = output c ∧ label_counter c' = label_counter c.
Proof.
  intros Hok Hv. pose proof (stack_view_length c Hok) as Hl.
  destruct Hok as [H1 H2 H3 H4].
  rewrite Hv in Hl; simpl in Hl. unfold pop_loop.
  rewrite bool_decide_eq_false_2 by lia.
  unfold stack_view in Hv.
  replace (Z.to_nat (loop_stack_top c + 1))
    with (S (Z.to_nat (loop_stack_top c))) in Hv by lia.
  destruct (lookup_lt_is_Some_2 (loop_stack c) (Z.to_nat (loop_stack_top c)))
    as [x Hx]; [lia|].
  rewrite (take_S_r _ _ x Hx), reverse_snoc in Hv.
  rewrite (list_lookup_total_correct _ _ _ Hx).
  injection Hv as -> Hs.
  eexists; split; [reflexivity|].
  split; [|split; [|done]].
  - unfold stack_view; simpl.
    replace (Z.to_nat (loop_stack_top c - 1 + 1))
      with (Z.to_nat (loop_stack_top c)) by lia.
    done.
  - split; simpl; lia.
Qed.

(** ** One iteration of the main loop *)

Ltac char_cases ch :=
  destruct (decide (ch = "+"%char)) as [-> | ?];
  [|destruct (decide (ch = "-"%char)) as [-> | ?];
  [|destruct (decide (ch = ">"%char)) as [-> | ?];
  [|destruct (decide (ch = "<"%char)) as [-> | ?];
  [|destruct (decide (ch = "."%char)) as [-> | ?];
  [|destruct (decide (ch = ","%char)) as [-> | ?];
  [|destruct (decide (ch = "["%char)) as [-> | ?];
  [|destruct (decide (ch = "]"%char)) as [-> | ?]]]]]]]].

Lemma foldable_cases ch :
  foldable ch = true →
  ch = "+"%char ∨ ch = "-"%char ∨ ch = ">"%char ∨ ch = "<"%char.
Proof.
  unfold foldable. rewrite !orb_true_iff, !bool_decide_eq_true. tauto.
Qed.

Lemma foldable_strchr ch : foldable ch = true → strchr "+-><.,[]" ch = true.
Proof. intros H. destruct (foldable_cases ch H) as [-> | [-> | [-> | ->]]]; reflexivity. Qed.

Lemma foldable_is_instruction ch : foldable ch = true → is_instruction ch = true.
Proof. intros H. destruct (foldable_cases ch H) as [-> | [-> | [-> | ->]]]; reflexivity. Qed.

Lemma strchr_spec ch :
  strchr "+-><.,[]" ch = is_instruction ch || bool_decide (ch = "000"%char).
Proof.
  char_cases ch; try reflexivity.
  unfold is_instruction. simpl.
  repeat (rewrite decide_False by congruence).
  rewrite (bool_decide_eq_false_2 (ch = "+"%char)) by done.
  rewrite (bool_decide_eq_false_2 (ch = "-"%char)) by done.
  rewrite (bool_decide_eq_false_2 (ch = ">"%char)) by done.
  rewrite (bool_decide_eq_false_2 (ch = "<"%char)) by done.
  rewrite (bool_decide_eq_false_2 (ch = "."%char)) by done.
  rewrite (bool_decide_eq_false_2 (ch = ","%char)) by done.
  rewrite (bool_decide_eq_false_2 (ch = "["%char)) by done.
  rewrite (bool_decide_eq_false_2 (ch = "]"%char)) by done.
  reflexivity.
Qed.

Lemma compile_instruction_foldable c ch :
  foldable ch = true → compile_instruction c ch = Ok (fprintf c (unit_op ch)).
Proof. intros H. destruct (foldable_cases ch H) as [-> | [-> | [-> | ->]]]; reflexivity. Qed.

Lemma compile_instruction_other c ch :
  is_instruction ch = false → compile_instruction c ch = Ok c.
Proof.
  unfold is_instruction. rewrite !orb_false_iff, !bool_decide_eq_false.
  intros. unfold compile_instruction.
  repeat (rewrite decide_False by tauto). reflexivity.
Qed.

Lemma count_while_run rest ch k :
  count_while rest ch k = k + Z.of_nat (run ch rest).
Proof.
  revert k. induction rest as [|x rest IH]; intros k; simpl; [lia|].
  case_decide; [rewrite IH|]; lia.
Qed.

Lemma count_repeats_run src ch :
  count_repeats src ch = Z.of_nat (run ch (drop (position src) (code src))).
Proof. unfold count_repeats. rewrite count_while_run. lia. Qed.

Lemma run_head ch rest : run ch (ch :: rest) = S (run ch rest).
Proof. simpl. by rewrite decide_True. Qed.

Lemma lookup_drop_head (l : list ascii) p ch :
  l !! p = Some ch → ∃ rest, drop p l = ch :: rest.
Proof.
  intros H. exists (drop (S p) l). by apply drop_S.
Qed.

(** A [+ - > <] at the cursor: one record for the whole run, and the
    cursor moves past the run. *)
Lemma loop_body_foldable c src ch rest :
  drop (position src) (code src) = ch :: rest →
  foldable ch = true →
  loop_body c src ch
  = Ok (fprintf c (run_op ch (Z.of_nat (S (run ch rest)))),
        set_position src (position src + S (run ch rest))%nat).
Proof.
  intros Hd Hf. unfold loop_body, compile_optimized.
  rewrite (foldable_strchr _ Hf), count_repeats_run, Hd, run_head, Hf.
  unfold run_op. rewrite andb_true_r.
  case_bool_decide as Hc; simpl.
  - f_equal. f_equal.
    + unfold folded_op.
      destruct (foldable_cases ch Hf) as [-> | [-> | [-> | ->]]]; reflexivity.
    + unfold set_position; simpl. f_equal. lia.
  - rewrite (compile_instruction_foldable _ _ Hf). simpl.
    unfold set_position; simpl. do 3 f_equal. lia.
Qed.

(** Any other byte at the cursor: [compile_instruction] decides, and the
    cursor moves by one.  A byte that [strchr] refuses and the null byte
    that it accepts both leave the compiler as it is. *)
Lemma loop_body_single c src ch :
  foldable ch = false →
  loop_body c src ch
  = bind (compile_instruction c ch)
         (λ c', Ok (c', set_position src (position src + 1)%nat)).
Proof.
  intros Hf. unfold loop_body, compile_optimized. rewrite Hf, andb_false_r.
  rewrite strchr_spec.
  destruct (is_instruction ch) eqn:Hi; simpl.
  - destruct (compile_instruction c ch); reflexivity.
  - rewrite (compile_instruction_other _ _ Hi).
    case_bool_decide; reflexivity.
Qed.

(** ** Runs *)

Lemma run_le ch l : (run ch l ≤ List.length l)%nat.
Proof. induction l as [|x l IH]; simpl; [lia|]. case_decide; lia. Qed.

Lemma run_lookup ch l i : (i < run ch l)%nat → l !! i = Some ch.
Proof.
  revert i. induction l as [|x l IH]; intros i; simpl; [lia|].
  case_decide as Hx; [|lia]. subst x.
  destruct i as [|i]; [done|]. intros Hi. apply IH. lia.
Qed.

Lemma run_stop ch l : l !! run ch l ≠ Some ch.
Proof.
  induction l as [|x l IH]; simpl; [done|].
  case_decide as Hx; [done|]. simpl. congruence.
Qed.

Lemma run_take ch l : take (run ch l) l = replicate (run ch l) ch.
Proof.
  induction l as [|x l IH]; simpl; [done|].
  case_decide as Hx; [|done]. subst x. simpl. by rewrite IH.
Qed.

(** ** Progress and termination of the main loop *)

Lemma loop_body_advance c src ch c' src' :
  code src !! position src = Some ch →
  loop_body c src ch = Ok (c', src') →
  code src' = code src
  ∧ (position src < position src' ≤ Source_length src)%nat
  ∧ (foldable ch = true →
     position src' = (position src + Z.to_nat (count_repeats src ch))%nat)
  ∧ (foldable ch = false → position src' = S (position src)).
Proof.
  intros Hch Hb.
  destruct (lookup_drop_head _ _ _ Hch) as [rest Hd].
  assert (Hlen : (position src + S (List.length rest) = Source_length src)%nat).
  { unfold Source_length. apply (f_equal List.length) in Hd.
    rewrite length_drop in Hd. simpl in Hd.
    apply lookup_lt_Some in Hch. lia. }
  destruct (foldable ch) eqn:Hf.
  - rewrite (loop_body_foldable _ _ _ _ Hd Hf) in Hb.
    injection Hb as <- <-. simpl.
    pose proof (run_le ch rest).
    rewrite count_repeats_run, Hd, run_head.
    repeat split; try done; lia.
  - rewrite (loop_body_single _ _ _ Hf) in Hb.
    destruct (compile_instruction c ch); simpl in Hb; [|done].
    injection Hb as <- <-. simpl. repeat split; try done; lia.
Qed.

Lemma compile_loop_enough fuel :
  ∀ c src, (Source_length src - position src ≤ fuel)%nat →
           ∃ r, compile_loop fuel c src = Some r.
Proof.
  induction fuel as [|fuel IH]; intros c src Hf.
  - simpl. rewrite lookup_ge_None_2 by (unfold Source_length in Hf; lia).
    by eexists.
  - simpl. destruct (code src !! position src) as [ch|] eqn:Hch; [|by eexists].
    destruct (loop_body c src ch) as [[c' src']|msg pos c'] eqn:Hb; [|by eexists].
    destruct (loop_body_advance _ _ _ _ _ Hch Hb) as (Hc & Hp & _).
    apply IH. unfold Source_length in *. rewrite Hc. lia.
Qed.

Lemma compile_loop_more fuel :
  ∀ fuel' c src r, (fuel ≤ fuel')%nat →
    compile_loop fuel c src = Some r → compile_loop fuel' c src = Some r.
Proof.
  induction fuel as [|fuel IH]; intros fuel' c src r Hle; simpl.
  - destruct (code src !! position src) eqn:Hch; [done|].
    intros <-. destruct fuel'; simpl; by rewrite Hch.
  - destruct fuel' as [|fuel']; [lia|]. simpl.
    destruct (code src !! position src) as [ch|]; [|done].
    destruct (loop_body c src ch) as [[c' src']|]; [|done].
    apply IH. lia.
Qed.

(** ** The states of a scan *)

Lemma scan_state_code bytes c src :
  scan_state bytes c src →
  code src = bytes ∧ (position src ≤ List.length bytes)%nat.
Proof.
  induction 1 as [|c src ch c' src' _ [IH1 IH2] Hch Hb]; simpl.
  - split; [done|lia].
  - destruct (loop_body_advance _ _ _ _ _ Hch Hb) as (Hc & Hp & _).
    unfold Source_length in Hp. rewrite IH1 in *. split; [done|lia].
Qed.

(** The count of a run fits in an [int] when the input does. *)
Lemma count_repeats_le src ch :
  0 ≤ count_repeats src ch ≤ Z.of_nat (Source_length src).
Proof.
  rewrite count_repeats_run.
  pose proof (run_le ch (drop (position src) (code src))) as Hr.
  rewrite length_drop in Hr. unfold Source_length. lia.
Qed.

(** C9: the scan terminates, on every input within [input_bound].  An
    iteration of the scan keeps the buffer, moves the cursor forward by at
    least one byte and never past the end (by the run length for
    [+ - > <], a count between 1 and [INT_MAX]; by one otherwise); so from
    every state of the scan as many iterations as bytes remain end the
    loop, and [compile_source] returns a result. *)
Theorem compile_terminates :
  (∀ bytes c src ch c' src',
     Z.of_nat (List.length bytes) ≤ input_bound →
     scan_state bytes c src →
     code src !! position src = Some ch →
     loop_body c src ch = Ok (c', src') →
     code src' = code src
     ∧ (position src < position src' ≤ List.length bytes)%nat
     ∧ (foldable ch = true →
        1 ≤ count_repeats src ch ≤ INT_MAX
        ∧ position src' = (position src + Z.to_nat (count_repeats src ch))%nat))
  ∧ (∀ bytes c src,
       Z.of_nat (List.length bytes) ≤ input_bound →
       scan_state bytes c src →
       ∃ r, compile_loop (List.length bytes - position src) c src = Some r)
  ∧ (∀ bytes,
       Z.of_nat (List.length bytes) ≤ input_bound →
       ∃ r, compile_source bytes = Some r).
Proof.
  split; [|split].
  - intros bytes c src ch c' src' Hlen Hs Hch Hb.
    destruct (scan_state_code _ _ _ Hs) as [Hcode _].
    destruct (loop_body_advance _ _ _ _ _ Hch Hb) as (Hc & Hp & Hf & _).
    unfold Source_length in Hp. rewrite Hcode in Hp.
    split; [done|]. split; [done|]. intros Hfold. split; [|auto].
    destruct (lookup_drop_head _ _ _ Hch) as [rest Hd].
    pose proof (count_repeats_le src ch) as Hle.
    unfold Source_length in Hle. rewrite Hcode in Hle.
    split; [|unfold input_bound, INT_MAX in *; lia].
    rewrite count_repeats_run, Hd, run_head. lia.
  - intros bytes c src _ Hs.
    destruct (scan_state_code _ _ _ Hs) as [Hcode _].
    apply compile_loop_enough. unfold Source_length. by rewrite Hcode.
  - intros bytes _. unfold compile_source, compile.
    destruct (compile_loop_enough (List.length bytes) (emit_header create_compiler)
                (mkSource bytes 0)) as [r Hr].
    { unfold Source_length; simpl. lia. }
    rewrite Hr. destruct r as [[c' src']|]; by eexists.
Qed.

Lemma compile_terminates_witness :
  (0 < 2 ≤ 3)%nat ∧ ∃ r, compile_source (bf "++[") = Some r.
Proof.
  assert (Hlen : Z.of_nat (List.length (bf "++[")) ≤ input_bound) by (by vm_compute).
  destruct compile_terminates as (Hstep & _ & Hall). split; [|by apply Hall].
  destruct (Hstep (bf "++[") (emit_header create_compiler) (mkSource (bf "++[") 0)
              "+"%char (fprintf (emit_header create_compiler) (AddB 2))
              (mkSource (bf "++[") 2) Hlen (scan_start _) eq_refl eq_refl)
    as (_ & Hpos & _).
  exact Hpos.
Defined.

(** After an iteration the cursor is never inside a run of [+ - > <]:
    the byte before it differs from a foldable byte under it. *)
Lemma loop_body_left_edge c src ch c' src' x :
  code src !! position src = Some ch →
  loop_body c src ch = Ok (c', src') →
  code src' !! position src' = Some x →
  foldable x = true →
  ∃ q, position src' = S q ∧ code src' !! q ≠ Some x.
Proof.
  intros Hch Hb Hx Hfx.
  destruct (lookup_drop_head _ _ _ Hch) as [rest Hd].
  destruct (foldable ch) eqn:Hf.
  - rewrite (loop_body_foldable _ _ _ _ Hd Hf) in Hb.
    injection Hb as <- <-. simpl in *.
    exists (position src + run ch rest)%nat. split; [lia|].
    assert (Hne : x ≠ ch).
    { intros ->. apply (run_stop ch rest).
      rewrite <- Hx.
      rewrite <- (lookup_drop (code src) (position src)), Hd. done. }
    rewrite <- (lookup_drop (code src) (position src)), Hd.
    destruct (run ch rest) as [|k] eqn:Hk; simpl; [congruence|].
    rewrite (run_lookup ch rest k) by lia. congruence.
  - rewrite (loop_body_single _ _ _ Hf) in Hb.
    destruct (compile_instruction c ch); simpl in Hb; [|done].
    injection Hb as <- <-. simpl in *.
    exists (position src). split; [lia|]. rewrite Hch. congruence.
Qed.

(** C6: a [+ - > <] under the cursor of the scan starts a run; on an input
    within [input_bound] the scanner counts the whole run ([n >= 1] equal
    bytes, an [int]; bounded on the right by the end of the input or
    another byte, on the left by the start of the input or another byte),
    the iteration appends exactly one record to the output for it (the
    unit instruction for [n = 1], the add/subtract by [n] otherwise),
    touches nothing else of the compiler, and leaves the cursor [n] bytes
    further. *)
Theorem scanner_folds_whole_run bytes c src ch :
  Z.of_nat (List.length bytes) ≤ input_bound →
  scan_state bytes c src →
  code src !! position src = Some ch →
  foldable ch = true →
  let p := position src in
  let n := count_repeats src ch in
  1 ≤ n ≤ INT_MAX
  ∧ (∀ i, (i < Z.to_nat n)%nat → bytes !! (p + i)%nat = Some ch)
  ∧ bytes !! (p + Z.to_nat n)%nat ≠ Some ch
  ∧ (∀ q, p = S q → bytes !! q ≠ Some ch)
  ∧ ∃ c',
      loop_body c src ch = Ok (c', set_position src (p + Z.to_nat n)%nat)
      ∧ output c' = output c ++ [run_op ch n]
      ∧ (n = 1 → run_op ch n = unit_op ch)
      ∧ (1 < n → run_op ch n = folded_op ch n)
      ∧ label_counter c' = label_counter c
      ∧ loop_stack c' = loop_stack c
      ∧ loop_stack_top c' = loop_stack_top c
      ∧ loop_stack_size c' = loop_stack_size c.
Proof.
  intros Hlen Hs Hch Hf p n.
  destruct (scan_state_code _ _ _ Hs) as [Hcode _].
  destruct (lookup_drop_head _ _ _ Hch) as [rest Hd].
  assert (Hn : n = Z.of_nat (S (run ch rest))).
  { subst n. by rewrite count_repeats_run, Hd, run_head. }
  assert (Hmax : n ≤ INT_MAX).
  { pose proof (count_repeats_le src ch) as Hle.
    unfold Source_length in Hle. rewrite Hcode in Hle.
    subst n. unfold input_bound, INT_MAX in *. lia. }
  split; [lia|]. clear Hmax.
  rewrite Hn, Nat2Z.id. subst p. rewrite <- Hcode.
  split; [|split; [|split]].
  - intros i Hi. rewrite <- lookup_drop, Hd.
    destruct i as [|i]; [done|]. simpl. apply run_lookup. lia.
  - rewrite <- lookup_drop, Hd. simpl. apply run_stop.
  - intros q Hq. destruct Hs as [|c0 src0 ch0 c src Hs0 Hch0 Hb0].
    + simpl in Hq. lia.
    + destruct (loop_body_left_edge _ _ _ _ _ _ Hch0 Hb0 Hch Hf) as (q' & Hq' & Hne).
      assert (q' = q) as -> by lia. done.
  - eexists. split; [by apply loop_body_foldable|].
    split; [done|]. unfold run_op.
    split; [intros H1; by rewrite bool_decide_eq_false_2 by lia|].
    split; [intros H1; by rewrite bool_decide_eq_true_2 by lia|done].
Qed.

Lemma scanner_folds_whole_run_witness :
  let c := emit_header create_compiler in
  let src := mkSource (bf "-+++.") 1 in
  count_repeats src "+" = 3
  ∧ ∃ c', loop_body (fprintf c DecB) src "+" = Ok (c', mkSource (bf "-+++.") 4)
          ∧ output c' = output (fprintf c DecB) ++ [AddB 3].
Proof.
  intros c src. split; [reflexivity|].
  destruct (scanner_folds_whole_run (bf "-+++.") (fprintf c DecB) src "+"%char)
    as (_ & _ & _ & _ & c' & Hb & Ho & _).
  - by vm_compute.
  - apply (scan_next _ c (mkSource (bf "-+++.") 0) "-"%char);
      [apply scan_start|reflexivity|reflexivity].
  - reflexivity.
  - reflexivity.
  - exists c'. split; [exact Hb|exact Ho].
Defined.

(** ** What the emitter writes for a run *)

Lemma compile_optimized_foldable c src ch :
  foldable ch = true →
  1 ≤ count_repeats src ch →
  compile_optimized c src ch
  = Ok (fprintf c (run_op ch (count_repeats src ch)),
        set_position src (position src + Z.to_nat (count_repeats src ch - 1))%nat).
Proof.
  intros Hf Hn. unfold compile_optimized, run_op. rewrite Hf, andb_true_r.
  case_bool_decide as Hc; simpl.
  - f_equal. f_equal. unfold folded_op.
    destruct (foldable_cases ch Hf) as [-> | [-> | [-> | ->]]]; reflexivity.
  - rewrite (compile_instruction_foldable _ _ Hf). simpl.
    replace (count_repeats src ch) with 1 by lia. simpl.
    destruct src as [bytes p]. unfold set_position; simpl.
    do 3 f_equal. lia.
Qed.

(** C8: for a run of [n >= 1] of one of [+ - > <] under the cursor ([n] an
    [int]) the emitter appends exactly one record to the output, and that
    one instruction adds [n] to, or subtracts [n] from, the byte at the
    address in the pointer register (for [+ -]) or the pointer register
    itself (for [> <]).  This holds for [n = 1] too, where the instruction
    is the unit form [incb]/[decb]/[incq]/[decq]; for [n >= 2] it is
    [addb]/[subb]/[addq]/[subq] with the immediate operand [n]. *)
Theorem emitter_one_record_per_run c src ch n :
  foldable ch = true →
  count_repeats src ch = n →
  1 ≤ n ≤ INT_MAX →
  ∃ a c',
    compile_optimized c src ch
    = Ok (c', set_position src (position src + Z.to_nat (n - 1))%nat)
    ∧ output c' = output c ++ [a]
    ∧ (∀ m,
         (ch = "+"%char → exec a m = set_cell m ((cell m + n) mod 256))
         ∧ (ch = "-"%char → exec a m = set_cell m ((cell m - n) mod 256))
         ∧ (ch = ">"%char → exec a m = set_r12 m (r12 m + n))
         ∧ (ch = "<"%char → exec a m = set_r12 m (r12 m - n)))
    ∧ (1 < n →
       (ch = "+"%char →
        a = AddB n
        ∧ render a = "    addb $" +:+ fmt_d n +:+ ", (%r12)    # + x" +:+ fmt_d n +:+ nl)
       ∧ (ch = "-"%char →
          a = SubB n
          ∧ render a = "    subb $" +:+ fmt_d n +:+ ", (%r12)    # - x" +:+ fmt_d n +:+ nl)
       ∧ (ch = ">"%char →
          a = AddQ n
          ∧ render a = "    addq $" +:+ fmt_d n +:+ ", %r12      # > x" +:+ fmt_d n +:+ nl)
       ∧ (ch = "<"%char →
          a = SubQ n
          ∧ render a = "    subq $" +:+ fmt_d n +:+ ", %r12      # < x" +:+ fmt_d n +:+ nl))
    ∧ (n = 1 →
       (ch = "+"%char → a = IncB ∧ render a = "    incb (%r12)         # +" +:+ nl)
       ∧ (ch = "-"%char → a = DecB ∧ render a = "    decb (%r12)         # -" +:+ nl)
       ∧ (ch = ">"%char → a = IncQ ∧ render a = "    incq %r12           # >" +:+ nl)
       ∧ (ch = "<"%char → a = DecQ ∧ render a = "    decq %r12           # <" +:+ nl)).
Proof.
  intros Hf Hc [Hn _]. exists (run_op ch n), (fprintf c (run_op ch n)). subst n.
  split; [by apply compile_optimized_foldable|]. split; [done|].
  unfold run_op. split; [|split].
  - intros m. case_bool_decide as H1.
    + repeat split; intros ->; reflexivity.
    + assert (count_repeats src ch = 1) as -> by lia.
      repeat split; intros ->; reflexivity.
  - intros H1. rewrite bool_decide_eq_true_2 by lia.
    repeat split; subst; reflexivity.
  - intros H1. rewrite H1. repeat split; subst; reflexivity.
Qed.

Lemma emitter_one_record_per_run_witness :
  (∃ a c',
     compile_optimized create_compiler (mkSource (bf "<<<<+") 0) "<"
     = Ok (c', mkSource (bf "<<<<+") 3)
     ∧ output c' = [a]
     ∧ a = SubQ 4
     ∧ exec a (mkMachine 10 ∅) = mkMachine 6 ∅)
  ∧ (∃ a c',
       compile_optimized create_compiler (mkSource (bf "<<<<+") 4) "+"
       = Ok (c', mkSource (bf "<<<<+") 4)
       ∧ output c' = [a]
       ∧ a = IncB
       ∧ exec a (mkMachine 10 {[10 := 255]}) = mkMachine 10 {[10 := 0]}).
Proof.
  split.
  - destruct (emitter_one_record_per_run create_compiler (mkSource (bf "<<<<+") 0)
                "<"%char 4) as (a & c' & Ha & Ho & Hsem & Hfold & _);
      [reflexivity|reflexivity|by vm_compute|].
    exists a, c'. split; [exact Ha|]. split; [exact Ho|].
    destruct (Hfold ltac:(lia)) as (_ & _ & _ & Hlt).
    destruct (Hlt eq_refl) as [-> _]. split; reflexivity.
  - destruct (emitter_one_record_per_run create_compiler (mkSource (bf "<<<<+") 4)
                "+"%char 1) as (a & c' & Ha & Ho & Hsem & _ & Hunit);
      [reflexivity|reflexivity|by vm_compute|].
    exists a, c'. split; [exact Ha|]. split; [exact Ho|].
    destruct (Hunit eq_refl) as (Hplus & _).
    destruct (Hplus eq_refl) as [-> _]. split; reflexivity.
Defined.

(** For [n = 1] the text of the record is that of the unit instruction,
    not that of an add with the immediate operand 1. *)
Lemma single_plus_is_written_as_inc :
  count_repeats (mkSource (bf "+") 0) "+" = 1
  ∧ compile_optimized create_compiler (mkSource (bf "+") 0) "+"
    = Ok (fprintf create_compiler IncB, mkSource (bf "+") 0)
  ∧ render IncB ≠ render (AddB 1).
Proof. repeat split; try reflexivity; discriminate. Qed.

(** ** Folding is transparent *)

Lemma replicate_snoc {A} n (x : A) : replicate (S n) x = replicate n x ++ [x].
Proof. induction n as [|n IH]; simpl; [done|]. by rewrite <- IH. Qed.

Lemma compile_units_foldable c ch n :
  foldable ch = true →
  ∃ cn, compile_units c ch n = Ok cn
        ∧ output cn = output c ++ replicate n (unit_op ch).
Proof.
  intros Hf. induction n as [|n (cn & Hcn & Hout)].
  - exists c. split; [done|]. simpl. by rewrite app_nil_r.
  - exists (fprintf cn (unit_op ch)). split.
    + unfold compile_units in *. simpl. rewrite Hcn. simpl.
      by rewrite compile_instruction_foldable.
    + rewrite replicate_snoc, app_assoc, <- Hout. done.
Qed.

Lemma run_asm_snoc l a m : run_asm (l ++ [a]) m = exec a (run_asm l m).
Proof. unfold run_asm. by rewrite foldl_app. Qed.

Lemma set_cell_twice m v w : set_cell (set_cell m v) w = set_cell m w.
Proof. unfold set_cell; simpl. by rewrite insert_insert_eq. Qed.

Lemma cell_set_cell m v : cell (set_cell m v) = v.
Proof. unfold cell, set_cell; simpl. by rewrite lookup_insert_eq. Qed.

Lemma units_cell_up n m :
  run_asm (replicate (S n) IncB) m = set_cell m ((cell m + Z.of_nat (S n)) mod 256).
Proof.
  induction n as [|n IH]; [reflexivity|].
  rewrite replicate_snoc, run_asm_snoc, IH. simpl exec.
  rewrite set_cell_twice, cell_set_cell. f_equal.
  rewrite Zplus_mod_idemp_l. f_equal. lia.
Qed.

Lemma units_cell_down n m :
  run_asm (replicate (S n) DecB) m = set_cell m ((cell m - Z.of_nat (S n)) mod 256).
Proof.
  induction n as [|n IH]; [reflexivity|].
  rewrite replicate_snoc, run_asm_snoc, IH. simpl exec.
  rewrite set_cell_twice, cell_set_cell. f_equal.
  rewrite Zminus_mod_idemp_l. f_equal. lia.
Qed.

Lemma units_ptr_up n m :
  run_asm (replicate n IncQ) m = set_r12 m (r12 m + Z.of_nat n).
Proof.
  induction n as [|n IH].
  - destruct m. unfold set_r12; simpl. f_equal. lia.
  - rewrite replicate_snoc, run_asm_snoc, IH, Nat2Z.inj_succ.
    simpl exec. unfold set_r12; simpl. f_equal. lia.
Qed.

Lemma units_ptr_down n m :
  run_asm (replicate n DecQ) m = set_r12 m (r12 m - Z.of_nat n).
Proof.
  induction n as [|n IH].
  - destruct m. unfold set_r12; simpl. f_equal. lia.
  - rewrite replicate_snoc, run_asm_snoc, IH, Nat2Z.inj_succ.
    simpl exec. unfold set_r12; simpl. f_equal. lia.
Qed.

(** C3: for a run of [n >= 1] of one of [+ - > <] under the cursor, [n]
    within the range of [int], the one record [compile_optimized] writes
    acts on every machine as the [n] records that [n] calls of
    [compile_instruction] write: modulo 256 on the cell for [+ -], as
    integer arithmetic on the pointer for [> <]. *)
Theorem fold_transparent c src ch n :
  foldable ch = true →
  count_repeats src ch = Z.of_nat n →
  (1 ≤ n)%nat →
  Z.of_nat n ≤ INT_MAX →
  ∃ c1 src1 cn folded units,
    compile_optimized c src ch = Ok (c1, src1)
    ∧ output c1 = output c ++ [folded]
    ∧ compile_units c ch n = Ok cn
    ∧ output cn = output c ++ units
    ∧ List.length units = n
    ∧ ∀ m, run_asm [folded] m = run_asm units m.
Proof.
  intros Hf Hc Hn _.
  destruct (compile_units_foldable c ch n Hf) as (cn & Hcn & Hout).
  assert (Hco := compile_optimized_foldable c src ch Hf).
  rewrite Hc in Hco.
  eexists _, _, cn, (run_op ch (Z.of_nat n)), (replicate n (unit_op ch)).
  split; [apply Hco; lia|].
  split; [done|]. split; [done|]. split; [done|].
  split; [by rewrite length_replicate|].
  intros m. destruct n as [|n]; [lia|]. unfold run_op.
  case_bool_decide as H1.
  - destruct (foldable_cases ch Hf) as [-> | [-> | [-> | ->]]];
      change (unit_op _) with IncB || change (unit_op _) with DecB
      || change (unit_op _) with IncQ || change (unit_op _) with DecQ.
    + by rewrite units_cell_up.
    + by rewrite units_cell_down.
    + by rewrite units_ptr_up.
    + by rewrite units_ptr_down.
  - assert (n = 0%nat) as -> by lia. reflexivity.
Qed.

Lemma fold_transparent_witness :
  run_asm [AddB 300] (mkMachine 7 {[7 := 250]})
  = run_asm (replicate 300 IncB) (mkMachine 7 {[7 := 250]}).
Proof.
  destruct (fold_transparent create_compiler
              (mkSource (replicate 300 "+"%char) 0) "+"%char 300)
    as (c1 & src1 & cn & folded & units & Hco & Ho1 & Hcu & Hon & _ & Hsem);
    [reflexivity|vm_compute; reflexivity|lia|by vm_compute|].
  vm_compute in Hco. injection Hco as <- <-.
  simpl in Ho1. injection Ho1 as <-.
  vm_compute in Hcu. injection Hcu as <-.
  simpl in Hon. subst units.
  exact (Hsem (mkMachine 7 {[7 := 250]})).
Defined.

(** ** Bracket structure *)

Lemma depth_app u v : depth (u ++ v) = depth u + depth v.
Proof. induction u as [|x u IH]; simpl; [done|]. rewrite IH. lia. Qed.

Lemma never_below_app d u v :
  never_below d (u ++ v) = never_below d u && never_below (d + depth u) v.
Proof.
  revert d. induction u as [|x u IH]; intros d; simpl.
  - f_equal. lia.
  - rewrite IH, andb_assoc. do 2 f_equal. lia.
Qed.

Lemma never_below_depth d w : 0 ≤ d → never_below d w = true → 0 ≤ d + depth w.
Proof.
  revert d. induction w as [|x w IH]; intros d Hd; simpl; [lia|].
  rewrite andb_true_iff, bool_decide_eq_true. intros [H1 H2].
  specialize (IH _ H1 H2). lia.
Qed.

Lemma balanced_never_below w :
  balanced w → depth w = 0 ∧ ∀ d, 0 ≤ d → never_below d w = true.
Proof.
  induction 1 as [|ch w H1 H2 _ [IHd IHn]|u w _ [IHud IHun] _ [IHwd IHwn]].
  - done.
  - assert (bracket_delta ch = 0) as Hz.
    { unfold bracket_delta. by rewrite !decide_False. }
    simpl. rewrite Hz. split; [lia|].
    intros d Hd. rewrite Z.add_0_r, IHn by done.
    by rewrite bool_decide_eq_true_2.
  - split.
    + simpl. rewrite depth_app. simpl. change (bracket_delta "[") with 1.
      change (bracket_delta "]") with (-1). lia.
    + intros d Hd. simpl. change (bracket_delta "[") with 1.
      rewrite never_below_app. simpl. change (bracket_delta "]") with (-1).
      rewrite IHun, IHud by lia.
      replace (d + 1 + 0 + -1) with d by lia.
      rewrite IHwn by done.
      rewrite !bool_decide_eq_true_2 by lia. done.
Qed.

Lemma balanced_depth w : balanced w → depth w = 0.
Proof. intros H. by apply balanced_never_below. Qed.

Lemma balanced_prefix u v : balanced (u ++ v) → 0 ≤ depth u.
Proof.
  intros H. destruct (balanced_never_below _ H) as [_ Hn].
  specialize (Hn 0 ltac:(lia)). rewrite never_below_app, andb_true_iff in Hn.
  pose proof (never_below_depth 0 u ltac:(lia) (proj1 Hn)). lia.
Qed.

Lemma balanced_app u v : balanced u → balanced v → balanced (u ++ v).
Proof.
  intros Hu Hv. induction Hu as [|ch w H1 H2 _ IH|u w Hu _ _ IH]; simpl.
  - done.
  - by constructor.
  - rewrite <- app_assoc. simpl. by constructor.
Qed.

Lemma balanced_wrap u : balanced u → balanced ("["%char :: u ++ ["]"%char]).
Proof. intros Hu. apply (balanced_loop u []); [done|constructor]. Qed.

Lemma open_loops_app_balanced w s b :
  open_loops w s → balanced b → open_loops (w ++ b) s.
Proof.
  intros Hw Hb. destruct Hw as [w Hw|w s b0 Hw Hb0].
  - constructor. by apply balanced_app.
  - rewrite <- app_assoc. simpl. constructor; [done|]. by apply balanced_app.
Qed.

Lemma open_loops_open w s :
  open_loops w s → open_loops (w ++ ["["%char]) (Z.of_nat (count_open w) :: s).
Proof. intros Hw. constructor; [done|constructor]. Qed.

Lemma open_loops_close w l s :
  open_loops w (l :: s) → open_loops (w ++ ["]"%char]) s.
Proof.
  inversion 1 as [|w0 s0 b Hw0 Hb]; subst.
  rewrite <- app_assoc. simpl.
  apply open_loops_app_balanced; [done|]. by apply balanced_wrap.
Qed.

Lemma open_loops_depth w s : open_loops w s → depth w = Z.of_nat (List.length s).
Proof.
  induction 1 as [w Hw|w s b _ IH Hb]; simpl.
  - by apply balanced_depth.
  - rewrite depth_app. simpl. change (bracket_delta "[") with 1.
    rewrite (balanced_depth _ Hb), IH. lia.
Qed.

Lemma open_loops_never_below w s : open_loops w s → never_below 0 w = true.
Proof.
  induction 1 as [w Hw|w s b Hw IH Hb].
  - by apply balanced_never_below.
  - rewrite never_below_app, IH. simpl. change (bracket_delta "[") with 1.
    pose proof (open_loops_depth _ _ Hw).
    rewrite bool_decide_eq_true_2 by lia. simpl.
    apply balanced_never_below; [done|lia].
Qed.

(** The innermost open bracket is determined by the text: it is the one
    followed by a balanced text. *)
Lemma innermost_unique w1 b1 w2 b2 :
  w1 ++ "["%char :: b1 = w2 ++ "["%char :: b2 →
  balanced b1 → balanced b2 → w1 = w2.
Proof.
  intros Heq H1 H2.
  assert (Hside : ∀ u1 c1 u2 c2,
             u1 ++ "["%char :: c1 = u2 ++ "["%char :: c2 →
             balanced c1 → balanced c2 →
             ∀ k, u1 = u2 ++ k → k = []).
  { intros u1 c1 u2 c2 He Hc1 Hc2 k ->.
    rewrite <- app_assoc in He. apply app_inv_head in He.
    destruct k as [|x k]; [done|]. simpl in He. injection He as -> He.
    exfalso. rewrite <- He in Hc2.
    pose proof (balanced_depth _ Hc2) as Hd.
    pose proof (balanced_prefix _ _ Hc2) as Hp.
    rewrite depth_app in Hd. simpl in Hd. change (bracket_delta "[") with 1 in Hd.
    rewrite (balanced_depth _ Hc1) in Hd. lia. }
  destruct (app_eq_inv _ _ _ _ Heq) as [(k & Hk & _)|(k & Hk & _)].
  - rewrite Hk, (Hside _ _ _ _ Heq H1 H2 k Hk). by rewrite app_nil_r.
  - rewrite Hk, (Hside _ _ _ _ (eq_sym Heq) H2 H1 k Hk). by rewrite app_nil_r.
Qed.

Lemma open_loops_unique w s1 s2 : open_loops w s1 → open_loops w s2 → s1 = s2.
Proof.
  intros H1. revert s2.
  induction H1 as [w Hw|w s b Hw IH Hb]; intros s2 H2.
  - pose proof (open_loops_depth _ _ H2) as Hd.
    rewrite (balanced_depth _ Hw) in Hd. destruct s2; [done|simpl in Hd; lia].
  - inversion H2 as [w2 Hw2 Heq|w2 s2' b2 Hw2 Hb2 Heq Hs].
    + exfalso. pose proof (balanced_depth _ Hw2) as Hd.
      pose proof (balanced_prefix _ _ Hw2) as Hp.
      rewrite depth_app in Hd. simpl in Hd. change (bracket_delta "[") with 1 in Hd.
      rewrite (balanced_depth _ Hb) in Hd. lia.
    + pose proof (innermost_unique _ _ _ _ Heq Hb2 Hb) as ->.
      by rewrite (IH _ Hw2).
Qed.

Lemma plain_single ch : ch ≠ "["%char → ch ≠ "]"%char → balanced [ch].
Proof. intros H1 H2. apply balanced_plain; [done..|constructor]. Qed.

Lemma open_loops_exists w : never_below 0 w = true → ∃ s, open_loops w s.
Proof.
  induction w as [|x w IH] using rev_ind; intros Hn.
  - exists []. do 2 constructor.
  - rewrite never_below_app, andb_true_iff in Hn. destruct Hn as [Hw Hx].
    destruct (IH Hw) as [s Hs]. simpl in Hx.
    rewrite andb_true_r, bool_decide_eq_true in Hx.
    pose proof (open_loops_depth _ _ Hs) as Hd.
    destruct (decide (x = "["%char)) as [-> | Ho].
    { eexists. by apply open_loops_open. }
    destruct (decide (x = "]"%char)) as [-> | Hc].
    { change (bracket_delta "]") with (-1) in Hx.
      destruct s as [|l s]; [simpl in Hd; lia|].
      exists s. by eapply open_loops_close. }
    exists s. apply open_loops_app_balanced; [done|]. by apply plain_single.
Qed.

(** The grammar of balanced texts and the count of brackets agree. *)
Lemma balanced_iff w : balanced w ↔ never_below 0 w = true ∧ depth w = 0.
Proof.
  split.
  - intros Hb. destruct (balanced_never_below _ Hb) as [Hd Hn].
    split; [by apply Hn|done].
  - intros [Hn Hd]. destruct (open_loops_exists _ Hn) as [s Hs].
    pose proof (open_loops_depth _ _ Hs) as Hl. rewrite Hd in Hl.
    destruct s; [|simpl in Hl; lia]. by inversion Hs.
Qed.

(** ** What the scan maintains *)

Lemma count_open_app u v : count_open (u ++ v) = (count_open u + count_open v)%nat.
Proof. unfold count_open. by rewrite filter_app, length_app. Qed.

Lemma count_open_run ch n : foldable ch = true → count_open (replicate n ch) = 0%nat.
Proof.
  intros Hf. unfold count_open. induction n as [|n IH]; simpl; [done|].
  rewrite filter_cons_False; [done|].
  destruct (foldable_cases ch Hf) as [-> | [-> | [-> | ->]]]; done.
Qed.

Lemma count_open_single ch :
  count_open [ch] = if decide (ch = "["%char) then 1%nat else 0%nat.
Proof. unfold count_open. rewrite filter_cons. by case_decide. Qed.

(** The prefix scanned after an iteration. *)
Lemma take_after_run (bytes : list ascii) p ch rest :
  drop p bytes = ch :: rest →
  take (p + S (run ch rest)) bytes = take p bytes ++ replicate (S (run ch rest)) ch.
Proof.
  intros Hd. rewrite <- take_take_drop, Hd. simpl. by rewrite run_take.
Qed.

Lemma take_after_one (bytes : list ascii) p ch :
  bytes !! p = Some ch → take (p + 1) bytes = take p bytes ++ [ch].
Proof. intros H. rewrite Nat.add_1_r. by apply take_S_r. Qed.

Lemma label_counter_fprintfs c l : label_counter (fprintfs c l) = label_counter c.
Proof. by destruct (fprintfs_fields l c) as (-> & _). Qed.

Lemma compile_instruction_open c :
  stack_ok c →
  ∃ c', compile_instruction c "[" = Ok c'
        ∧ output c' = output c ++ loop_open_records (label_counter c)
        ∧ label_counter c' = label_counter c + 1
        ∧ stack_view c' = label_counter c :: stack_view c
        ∧ stack_ok c'.
Proof.
  intros Hok.
  set (c1 := snd (next_label c)).
  assert (Hok1 : stack_ok c1) by (destruct Hok; split; done).
  exists (fprintfs (push_loop c1 (label_counter c))
            (loop_open_records (label_counter c))).
  split; [reflexivity|].
  rewrite output_fprintfs, label_counter_fprintfs, stack_view_fprintfs.
  rewrite (stack_view_push c1 _ Hok1).
  split; [done|]. split; [done|]. split; [done|].
  apply stack_ok_fprintfs. by apply push_loop_ok.
Qed.

Lemma compile_instruction_close_unfold c :
  compile_instruction c "]"
  = bind (pop_loop c) (λ '(label, c1), Ok (fprintfs c1 (loop_close_records label))).
Proof. reflexivity. Qed.

Lemma compile_instruction_close c label s :
  stack_ok c → stack_view c = label :: s →
  ∃ c', compile_instruction c "]" = Ok c'
        ∧ output c' = output c ++ loop_close_records label
        ∧ label_counter c' = label_counter c
        ∧ stack_view c' = s
        ∧ stack_ok c'.
Proof.
  intros Hok Hv.
  destruct (pop_loop_cons c label s Hok Hv) as (c1 & Hpop & Hv1 & Hok1 & Ho1 & Hl1).
  exists (fprintfs c1 (loop_close_records label)).
  rewrite compile_instruction_close_unfold, Hpop.
  split; [reflexivity|].
  rewrite output_fprintfs, label_counter_fprintfs, stack_view_fprintfs, Ho1.
  split; [done|]. split; [done|]. split; [done|].
  by apply stack_ok_fprintfs.
Qed.

Lemma compile_instruction_close_empty c :
  stack_ok c → stack_view c = [] →
  compile_instruction c "]" = Exit Unmatched_close 0 c.
Proof.
  intros Hok Hv.
  by rewrite compile_instruction_close_unfold, (pop_loop_empty c Hok Hv).
Qed.

Lemma compile_instruction_io c ch :
  ch = "."%char ∨ ch = ","%char →
  ∃ l, compile_instruction c ch = Ok (fprintfs c l)
       ∧ start_labels l = [] ∧ end_labels l = []
       ∧ je_targets l = [] ∧ jne_targets l = [].
Proof. intros [-> | ->]; eexists; (split; [reflexivity|done]). Qed.

Lemma run_op_no_label ch n :
  start_label (run_op ch n) = None ∧ end_label (run_op ch n) = None
  ∧ je_target (run_op ch n) = None ∧ jne_target (run_op ch n) = None.
Proof.
  unfold run_op, folded_op, unit_op.
  case_bool_decide; repeat case_decide; done.
Qed.

Lemma scan_inv_start bytes :
  scan_inv bytes (emit_header create_compiler) (mkSource bytes 0).
Proof.
  split;
    [apply stack_ok_fprintfs, stack_ok_create
    |simpl; rewrite take_0; do 2 constructor
    |done..].
Qed.

(** An iteration that writes no label and moves over balanced text. *)
Lemma scan_inv_plain bytes c src c' p' l v :
  scan_inv bytes c src →
  stack_ok c' → stack_view c' = stack_view c →
  label_counter c' = label_counter c →
  output c' = output c ++ l →
  start_labels l = [] → end_labels l = [] →
  je_targets l = [] → jne_targets l = [] →
  take p' bytes = take (position src) bytes ++ v →
  balanced v → count_open v = 0%nat →
  scan_inv bytes c' (set_position src p').
Proof.
  intros [Hok Hopen Hcnt Hst Hen Hje Hjne] Hok' Hv Hl Hout Hs He Hj Hjn Ht Hb Hc.
  unfold start_labels, end_labels, je_targets, jne_targets in *.
  split; simpl; unfold start_labels, end_labels, je_targets, jne_targets;
    rewrite ?Ht, ?Hv, ?Hl, ?Hout, ?omap_app, ?Hs, ?He, ?Hj, ?Hjn, ?app_nil_r;
    try done.
  - by apply open_loops_app_balanced.
  - rewrite count_open_app, Hc, Hcnt. f_equal. lia.
Qed.

Lemma balanced_run ch n : foldable ch = true → balanced (replicate n ch).
Proof.
  intros Hf. induction n as [|n IH]; simpl; [constructor|].
  destruct (foldable_cases ch Hf) as [-> | [-> | [-> | ->]]];
    by apply balanced_plain.
Qed.

Lemma not_bracket_single ch :
  ch ≠ "["%char → ch ≠ "]"%char → balanced [ch] ∧ count_open [ch] = 0%nat.
Proof.
  intros H1 H2. split; [apply balanced_plain; [done..|constructor]|].
  rewrite count_open_single. by rewrite decide_False.
Qed.

(** One iteration keeps [scan_inv]; the only way out is a []] met with an
    empty loop stack, which leaves the compiler as it was. *)
Lemma scan_inv_step bytes c src ch :
  code src = bytes →
  scan_inv bytes c src →
  code src !! position src = Some ch →
  match loop_body c src ch with
  | Ok (c', src') => scan_inv bytes c' src'
  | Exit msg pos c' =>
      msg = Unmatched_close ∧ pos = 0 ∧ c' = c
      ∧ ch = "]"%char ∧ stack_view c = []
  end.
Proof.
  intros Hcode Hinv Hch.
  destruct (lookup_drop_head _ _ _ Hch) as [rest Hd].
  destruct (foldable ch) eqn:Hf.
  { rewrite (loop_body_foldable _ _ _ _ Hd Hf).
    destruct (run_op_no_label ch (Z.of_nat (S (run ch rest)))) as (H1 & H2 & H3 & H4).
    eapply (scan_inv_plain bytes c src _ _ [_]); try done.
    - by apply stack_ok_fprintf, Hinv.
    - unfold start_labels; simpl. by rewrite H1.
    - unfold end_labels; simpl. by rewrite H2.
    - unfold je_targets; simpl. by rewrite H3.
    - unfold jne_targets; simpl. by rewrite H4.
    - rewrite <- Hcode. by apply take_after_run.
    - by apply balanced_run.
    - by apply count_open_run. }
  rewrite (loop_body_single _ _ _ Hf).
  assert (Htake : take (position src + 1) bytes = take (position src) bytes ++ [ch]).
  { rewrite <- Hcode. by apply take_after_one. }
  destruct (decide (ch = "["%char)) as [-> | Hno].
  { destruct (compile_instruction_open c (inv_stack_ok _ _ _ Hinv))
      as (c' & -> & Hout & Hl & Hv & Hok').
    destruct Hinv as [Hok Hopen Hcnt Hst Hen Hje Hjne]. simpl.
    unfold start_labels, end_labels, je_targets, jne_targets in *.
    split; simpl; unfold start_labels, end_labels, je_targets, jne_targets;
      rewrite ?Htake, ?Hv, ?Hl, ?Hout, ?omap_app; simpl; try done.
    - rewrite Hcnt. by apply open_loops_open.
    - rewrite count_open_app, count_open_single, Hcnt. simpl. lia.
    - rewrite Hst, Hcnt.
      replace (Z.of_nat (count_open (take (position src) bytes)) + 1)
        with (Z.of_nat (S (count_open (take (position src) bytes)))) by lia.
      rewrite seqZ_S. done.
    - rewrite app_nil_r. rewrite <- Permutation_middle.
      rewrite Hen, Hcnt.
      replace (Z.of_nat (count_open (take (position src) bytes)) + 1)
        with (Z.of_nat (S (count_open (take (position src) bytes)))) by lia.
      rewrite seqZ_S. simpl. by rewrite Permutation_cons_append.
    - by rewrite Hje.
    - by rewrite Hjne. }
  destruct (decide (ch = "]"%char)) as [-> | Hnc].
  { destruct (stack_view c) as [|label s] eqn:Hsv.
    - rewrite (compile_instruction_close_empty c (inv_stack_ok _ _ _ Hinv) Hsv).
      simpl. done.
    - destruct (compile_instruction_close c label s (inv_stack_ok _ _ _ Hinv) Hsv)
        as (c' & -> & Hout & Hl & Hv & Hok').
      destruct Hinv as [Hok Hopen Hcnt Hst Hen Hje Hjne]. simpl.
      unfold start_labels, end_labels, je_targets, jne_targets in *.
      split; simpl; unfold start_labels, end_labels, je_targets, jne_targets;
        rewrite ?Htake, ?Hv, ?Hl, ?Hout, ?omap_app; simpl; try done.
      + rewrite Hsv in Hopen. by eapply open_loops_close.
      + rewrite count_open_app, count_open_single, Hcnt. simpl. lia.
      + by rewrite app_nil_r.
      + rewrite <- app_assoc. simpl. by rewrite <- Hen, Hsv.
      + by rewrite Hje, app_nil_r.
      + by rewrite Hjne. }
  destruct (not_bracket_single ch Hno Hnc) as [Hb Hc0].
  destruct (is_instruction ch) eqn:Hi.
  - assert (ch = "."%char ∨ ch = ","%char) as Hio.
    { unfold is_instruction, foldable in *.
      rewrite !orb_true_iff, !bool_decide_eq_true in Hi.
      rewrite !orb_false_iff, !bool_decide_eq_false in Hf. tauto. }
    destruct (compile_instruction_io c ch Hio) as (l & -> & Hs & He & Hj & Hjn).
    simpl. eapply (scan_inv_plain bytes c src _ _ l); try done.
    + by apply stack_ok_fprintfs, Hinv.
    + by apply stack_view_fprintfs.
    + by apply label_counter_fprintfs.
    + by apply output_fprintfs.
  - rewrite (compile_instruction_other _ _ Hi). simpl.
    eapply (scan_inv_plain bytes c src _ _ []); try done.
    + apply Hinv.
    + by rewrite app_nil_r.
Qed.

Lemma scan_state_inv bytes c src : scan_state bytes c src → scan_inv bytes c src.
Proof.
  induction 1 as [|c src ch c' src' Hs IH Hch Hb].
  - apply scan_inv_start.
  - destruct (scan_state_code _ _ _ Hs) as [Hcode _].
    pose proof (scan_inv_step bytes c src ch Hcode IH Hch) as Hstep.
    by rewrite Hb in Hstep.
Qed.

(** The counter, the stack top and the count of a run stay within the
    length of the input: the counter and the stack top in every state of
    the scan, the count of a run at any cursor.  The size of the array is
    bounded in [int_arithmetic_in_range]. *)
Lemma int_variables_bounded bytes c src ch :
  scan_state bytes c src →
  0 ≤ label_counter c ≤ Z.of_nat (List.length bytes)
  ∧ -1 ≤ loop_stack_top c < label_counter c
  ∧ 0 ≤ count_repeats src ch ≤ Z.of_nat (List.length bytes).
Proof.
  intros Hs. destruct (scan_state_code _ _ _ Hs) as [Hcode Hpos].
  destruct (scan_state_inv _ _ _ Hs) as [Hok _ Hcnt _ Hen _ _].
  assert (Hopen : (count_open (take (position src) bytes) ≤ List.length bytes)%nat).
  { unfold count_open.
    etrans; [apply length_filter|]. rewrite length_take. lia. }
  split; [lia|]. split.
  - pose proof (stack_view_length c Hok) as Hl.
    apply Permutation_length in Hen.
    rewrite length_app, length_seqZ in Hen. destruct Hok.
    assert (Z.of_nat (List.length (stack_view c)) ≤ label_counter c) by lia.
    split; lia.
  - rewrite count_repeats_run.
    pose proof (run_le ch (drop (position src) (code src))) as Hr.
    rewrite length_drop in Hr. rewrite <- Hcode. lia.
Qed.

Lemma iterate_state bytes k :
  ∀ c src c' src', scan_state bytes c src →
    iterate k c src = Some (c', src') → scan_state bytes c' src'.
Proof.
  induction k as [|k IH]; intros c src c' src' Hs; simpl.
  - by intros [= <- <-].
  - destruct (code src !! position src) as [ch|] eqn:Hch; [|done].
    destruct (loop_body c src ch) as [[c1 src1]|] eqn:Hb; [|done].
    apply IH. by eapply scan_next.
Qed.

(** The result of the whole loop is the result of the loop resumed in any
    state of the scan. *)
Lemma scan_state_result bytes c src r :
  scan_state bytes c src →
  compile_loop (List.length bytes) c src = Some r →
  compile_loop (List.length bytes) (emit_header create_compiler) (mkSource bytes 0)
  = Some r.
Proof.
  induction 1 as [|c src ch c' src' Hs IH Hch Hb]; [done|].
  intros Hr. apply IH.
  destruct (scan_state_code _ _ _ Hs) as [Hcode _].
  destruct (compile_loop_enough (List.length bytes) c src) as [r' Hr'].
  { unfold Source_length. rewrite Hcode. lia. }
  rewrite Hr'. f_equal.
  pose proof (compile_loop_more (List.length bytes) (S (List.length bytes))
                _ _ _ (Nat.le_succ_diag_r _) Hr') as H1.
  simpl in H1. rewrite Hch, Hb, Hr in H1. congruence.
Qed.

(** The loop ends in a state of the scan, or leaves from one. *)
Lemma compile_loop_states bytes fuel :
  ∀ c src, scan_state bytes c src →
  match compile_loop fuel c src with
  | Some (Ok (c', src')) =>
      scan_state bytes c' src' ∧ position src' = List.length bytes
  | Some (Exit msg pos c') =>
      ∃ c0 src0 ch, scan_state bytes c0 src0
                    ∧ code src0 !! position src0 = Some ch
                    ∧ loop_body c0 src0 ch = Exit msg pos c'
  | None => True
  end.
Proof.
  induction fuel as [|fuel IH]; intros c src Hs; simpl;
    destruct (scan_state_code _ _ _ Hs) as [Hcode Hpos].
  - destruct (code src !! position src) eqn:Hch; [done|].
    split; [done|]. apply lookup_ge_None_1 in Hch. rewrite Hcode in Hch. lia.
  - destruct (code src !! position src) as [ch|] eqn:Hch.
    + destruct (loop_body c src ch) as [[c1 src1]|msg pos c1] eqn:Hb.
      * apply IH. by eapply scan_next.
      * by exists c, src, ch.
    + split; [done|]. apply lookup_ge_None_1 in Hch. rewrite Hcode in Hch. lia.
Qed.

(** C1: on an input within [input_bound], in every state of the scan the
    loop stack holds exactly the labels of the loops that are open in the
    text scanned so far, innermost on top (and no other list of labels
    fits that text), so its depth is the nesting depth (opening minus
    closing brackets).  The label on top is that of the innermost open
    [[], the one followed by balanced text; and a []] under the cursor is
    paired with it: both records written for the []] carry the label of
    that [[], and that label leaves the stack. *)
Theorem loop_stack_tracks_nesting bytes c src :
  Z.of_nat (List.length bytes) ≤ input_bound →
  scan_state bytes c src →
  open_loops (take (position src) bytes) (stack_view c)
  ∧ (∀ s, open_loops (take (position src) bytes) s → s = stack_view c)
  ∧ Z.of_nat (List.length (stack_view c)) = depth (take (position src) bytes)
  ∧ loop_stack_top c + 1 = depth (take (position src) bytes)
  ∧ Forall (λ l, 0 ≤ l ≤ INT_MAX) (stack_view c)
  ∧ (∀ l s, stack_view c = l :: s →
       ∃ u b, take (position src) bytes = u ++ "["%char :: b
              ∧ balanced b ∧ l = Z.of_nat (count_open u))
  ∧ (code src !! position src = Some "]"%char →
     ∀ u b, take (position src) bytes = u ++ "["%char :: b → balanced b →
       ∃ c', loop_body c src "]"
             = Ok (c', set_position src (position src + 1)%nat)
           ∧ output c' = output c ++ loop_close_records (Z.of_nat (count_open u))
           ∧ stack_view c = Z.of_nat (count_open u) :: stack_view c').
Proof.
  intros Hlen Hs. pose proof (scan_state_inv _ _ _ Hs) as Hinv.
  pose proof (inv_open _ _ _ Hinv) as Hopen.
  pose proof (open_loops_depth _ _ Hopen) as Hdepth.
  split; [done|].
  split; [intros s Hs'; by apply (open_loops_unique _ _ _ Hs' Hopen)|].
  split; [done|].
  split; [rewrite <- (stack_view_length c (inv_stack_ok _ _ _ Hinv)); done|].
  split.
  { destruct (int_variables_bounded bytes c src "+"%char Hs) as (Hcnt & _ & _).
    apply Forall_forall. intros l Hl.
    assert (Hin : l ∈ seqZ 0 (label_counter c)).
    { rewrite <- (inv_ends _ _ _ Hinv). apply elem_of_app. by right. }
    apply elem_of_seqZ in Hin. unfold INT_MAX, input_bound in *. lia. }
  split.
  { intros l s Hls. rewrite Hls in Hopen.
    inversion Hopen as [|w0 s0 b0 Hw0 Hb0 Heq Hs0]. by exists w0, b0. }
  intros Hch u b Hw Hb.
  assert (Hsv : ∃ s, open_loops u s ∧ stack_view c = Z.of_nat (count_open u) :: s).
  { rewrite Hw in Hopen.
    inversion Hopen as [w0 Hbal Heq|w0 s0 b0 Hw0 Hb0 Heq Hs0].
    - exfalso. pose proof (balanced_depth _ Hbal) as Hd.
      pose proof (balanced_prefix _ _ Hbal) as Hp.
      rewrite depth_app in Hd. simpl in Hd.
      change (bracket_delta "[") with 1 in Hd.
      rewrite (balanced_depth _ Hb) in Hd. lia.
    - pose proof (innermost_unique _ _ _ _ Heq Hb0 Hb) as ->. by exists s0. }
  destruct Hsv as (s & _ & Hsv).
  destruct (compile_instruction_close c _ s (inv_stack_ok _ _ _ Hinv) Hsv)
    as (c' & Hci & Hout & _ & Hv & _).
  exists c'. rewrite (loop_body_single c src "]" eq_refl), Hci. simpl.
  split; [done|]. split; [done|]. by rewrite Hv.
Qed.

Lemma loop_stack_tracks_nesting_witness :
  ∃ c src c',
    iterate 4 (emit_header create_compiler) (mkSource (bf "[+[-]]") 0) = Some (c, src)
    ∧ position src = 4%nat
    ∧ stack_view c = [1; 0]
    ∧ loop_body c src "]" = Ok (c', set_position src 5)
    ∧ output c' = output c ++ loop_close_records 1.
Proof.
  destruct (iterate 4 (emit_header create_compiler) (mkSource (bf "[+[-]]") 0))
    as [[c src]|] eqn:Hit; [|discriminate Hit].
  pose proof (iterate_state _ _ _ _ _ _ (scan_start _) Hit) as Hs.
  assert (Hlen : Z.of_nat (List.length (bf "[+[-]]")) ≤ input_bound)
    by (by vm_compute).
  pose proof (loop_stack_tracks_nesting _ _ _ Hlen Hs)
    as (_ & _ & _ & _ & _ & _ & Hclose).
  vm_compute in Hit. injection Hit as <- <-.
  destruct (Hclose eq_refl (bf "[+") (bf "-") eq_refl) as (c' & Hb & Hout & _).
  { apply balanced_plain; [done..|constructor]. }
  eexists _, _, c'. split; [reflexivity|]. split; [reflexivity|].
  split; [reflexivity|]. split; [exact Hb|exact Hout].
Defined.

(** ** Errors *)

Lemma compile_from_loop bytes r :
  compile_loop (List.length bytes) (emit_header create_compiler) (mkSource bytes 0)
  = Some r →
  compile_source bytes
  = Some (match r with
          | Ok (c, _) => compile_end c
          | Exit msg pos c => Exit msg pos c
          end).
Proof.
  intros Hr. unfold compile_source, compile. rewrite Hr.
  by destruct r as [[c src]|].
Qed.

(** C4: when the scan meets a []] while the loop stack is empty, the text
    before it is balanced (it is the first excess close), the iteration
    ends in [error] with the compiler as it was before that []] (nothing
    is written for it), and that is the result of [compile_source],
    whatever follows in the input. *)
Theorem unmatched_close_aborts bytes c src :
  scan_state bytes c src →
  code src !! position src = Some "]"%char →
  loop_stack_top c < 0 →
  balanced (take (position src) bytes)
  ∧ loop_body c src "]" = Exit Unmatched_close 0 c
  ∧ compile_source bytes = Some (Exit Unmatched_close 0 c).
Proof.
  intros Hs Hch Htop. pose proof (scan_state_inv _ _ _ Hs) as Hinv.
  pose proof (inv_stack_ok _ _ _ Hinv) as Hok.
  assert (Hsv : stack_view c = []).
  { pose proof (stack_view_length c Hok) as Hl.
    destruct (stack_view c); [done|simpl in Hl; lia]. }
  assert (Hb : loop_body c src "]" = Exit Unmatched_close 0 c).
  { rewrite (loop_body_single c src "]" eq_refl).
    by rewrite (compile_instruction_close_empty c Hok Hsv). }
  split; [|split; [done|]].
  - pose proof (inv_open _ _ _ Hinv) as Hopen. rewrite Hsv in Hopen.
    by inversion Hopen.
  - destruct (scan_state_code _ _ _ Hs) as [Hcode Hpos].
    rewrite (compile_from_loop bytes (Exit Unmatched_close 0 c)); [done|].
    apply (scan_state_result bytes c src); [done|].
    assert (Hlt : (position src < List.length bytes)%nat).
    { apply lookup_lt_Some in Hch. by rewrite Hcode in Hch. }
    destruct (List.length bytes) as [|n]; [lia|].
    simpl. by rewrite Hch, Hb.
Qed.

Lemma unmatched_close_aborts_witness :
  ∃ c, compile_source (bf "+[-]]>[.") = Some (Exit Unmatched_close 0 c)
       ∧ start_labels (output c) = [0] ∧ end_labels (output c) = [0].
Proof.
  destruct (iterate 4 (emit_header create_compiler) (mkSource (bf "+[-]]>[.") 0))
    as [[c src]|] eqn:Hit; [|discriminate Hit].
  pose proof (iterate_state _ _ _ _ _ _ (scan_start _) Hit) as Hs.
  vm_compute in Hit. injection Hit as <- <-.
  destruct (unmatched_close_aborts _ _ _ Hs) as (_ & _ & Hc);
    [reflexivity|simpl; lia|].
  eexists. split; [exact Hc|]. split; reflexivity.
Defined.

(** C5: when the loop has run to the end of the input, the loop stack
    decides.  If it is not empty (more [[] than []] in the input),
    [compile_source] ends in [error] with "Unmatched '['" and the compiler
    as the loop left it: no footer.  If it is empty, [compile_source]
    appends the four records of the footer, the exit system call with
    status 0, and nothing else.  The loop itself never reports an
    unmatched [[]: a result of [compile_source] with that message comes
    from the check after the loop. *)
Theorem end_of_stream_check bytes :
  (∀ c src,
     compile_loop (List.length bytes) (emit_header create_compiler)
       (mkSource bytes 0) = Some (Ok (c, src)) →
     position src = List.length bytes
     ∧ loop_stack_top c + 1 = depth bytes
     ∧ (0 ≤ loop_stack_top c →
        compile_source bytes = Some (Exit Unmatched_open 0 c))
     ∧ (loop_stack_top c < 0 →
        ∃ c', compile_source bytes = Some (Ok c')
              ∧ c' = emit_footer c
              ∧ output c'
                = output c
                  ++ [ Verbatim (nl +:+ "    # Exit program" +:+ nl);
                       Verbatim ("    movq $60, %rax      # sys_exit" +:+ nl);
                       Verbatim ("    xorq %rdi, %rdi    # exit code 0" +:+ nl);
                       Verbatim ("    syscall" +:+ nl) ]))
  ∧ (∀ msg pos c,
       compile_loop (List.length bytes) (emit_header create_compiler)
         (mkSource bytes 0) = Some (Exit msg pos c) →
       msg = Unmatched_close)
  ∧ (∀ pos c,
       compile_source bytes = Some (Exit Unmatched_open pos c) →
       ∃ src, compile_loop (List.length bytes) (emit_header create_compiler)
                (mkSource bytes 0) = Some (Ok (c, src))
              ∧ position src = List.length bytes ∧ 0 ≤ loop_stack_top c).
Proof.
  pose proof (compile_loop_states bytes (List.length bytes) _ _ (scan_start bytes))
    as Hstates.
  split; [|split].
  - intros c src Hr. rewrite Hr in Hstates. destruct Hstates as [Hs Hp].
    pose proof (scan_state_inv _ _ _ Hs) as Hinv.
    split; [done|]. split.
    { pose proof (open_loops_depth _ _ (inv_open _ _ _ Hinv)) as Hd.
      rewrite Hp, firstn_all in Hd.
      rewrite Hd. symmetry. apply stack_view_length, Hinv. }
    rewrite (compile_from_loop _ _ Hr). unfold compile_end. split.
    + intros Ht. by rewrite bool_decide_eq_true_2 by lia.
    + intros Ht. rewrite bool_decide_eq_false_2 by lia.
      eexists. split; [done|]. split; [done|]. apply output_fprintfs.
  - intros msg pos c Hr. rewrite Hr in Hstates.
    destruct Hstates as (c0 & src0 & ch & Hs & Hch & Hb).
    destruct (scan_state_code _ _ _ Hs) as [Hcode _].
    pose proof (scan_inv_step bytes c0 src0 ch Hcode (scan_state_inv _ _ _ Hs) Hch)
      as Hstep.
    rewrite Hb in Hstep. tauto.
  - intros pos c Hc.
    destruct (compile_loop_enough (List.length bytes) (emit_header create_compiler)
                (mkSource bytes 0)) as [r Hr].
    { unfold Source_length; simpl; lia. }
    rewrite (compile_from_loop _ _ Hr) in Hc.
    destruct r as [[c1 src1]|msg1 pos1 c1].
    + rewrite Hr in Hstates. destruct Hstates as [_ Hp].
      unfold compile_end in Hc. case_bool_decide as Ht; [|done].
      injection Hc as _ <-. exists src1. split; [done|]. split; [done|lia].
    + exfalso. rewrite Hr in Hstates.
      destruct Hstates as (c0 & src0 & ch & Hs & Hch & Hb).
      destruct (scan_state_code _ _ _ Hs) as [Hcode _].
      pose proof (scan_inv_step bytes c0 src0 ch Hcode (scan_state_inv _ _ _ Hs) Hch)
        as Hstep.
      rewrite Hb in Hstep. destruct Hstep as (-> & _).
      injection Hc as Hm _ _. discriminate Hm.
Qed.

Lemma end_of_stream_check_witness :
  (∃ c, compile_source (bf "[") = Some (Exit Unmatched_open 0 c)
        ∧ output c = header ++ loop_open_records 0)
  ∧ (∃ c, compile_source (bf ",.") = Some (Ok c)
          ∧ output c = header ++ input_seq ++ output_seq ++ footer).
Proof.
  split.
  - destruct (compile_loop 1 (emit_header create_compiler) (mkSource (bf "[") 0))
      as [[[c src]|]|] eqn:Hl; try discriminate Hl.
    destruct (proj1 (end_of_stream_check (bf "[")) c src Hl) as (_ & _ & Hopen & _).
    vm_compute in Hl. injection Hl as <- <-.
    eexists. split; [apply Hopen; simpl; lia|reflexivity].
  - destruct (compile_loop 2 (emit_header create_compiler) (mkSource (bf ",.") 0))
      as [[[c src]|]|] eqn:Hl; try discriminate Hl.
    destruct (proj1 (end_of_stream_check (bf ",.")) c src Hl) as (_ & _ & _ & Hfoot).
    vm_compute in Hl. injection Hl as <- <-.
    assert (Htop : loop_stack_top (fprintfs (fprintfs (emit_header create_compiler)
                                      input_seq) output_seq) < 0) by (by vm_compute).
    destruct (Hfoot Htop) as (c' & Hc' & -> & _).
    eexists. split; [exact Hc'|reflexivity].
Defined.

(** ** Labels *)

Lemma balanced_no_excess_close (bytes : list ascii) p :
  balanced bytes → bytes !! p = Some "]"%char → depth (take p bytes) ≠ 0.
Proof.
  intros Hb Hp Hd.
  rewrite <- (take_drop (S p) bytes) in Hb.
  apply balanced_prefix in Hb.
  rewrite (take_S_r _ _ _ Hp), depth_app, Hd in Hb. simpl in Hb.
  change (bracket_delta "]") with (-1) in Hb. lia.
Qed.

Lemma string_length_app (s1 s2 : string) :
  String.length (s1 +:+ s2) = (String.length s1 + String.length s2)%nat.
Proof. induction s1 as [|a s1 IH]; simpl; [done|]. by rewrite IH. Qed.

Lemma string_app_inv_tail (s1 s2 t : string) : s1 +:+ t = s2 +:+ t → s1 = s2.
Proof.
  intros H.
  assert (Hl : String.length s1 = String.length s2).
  { apply (f_equal String.length) in H. rewrite !string_length_app in H. lia. }
  revert s2 H Hl.
  induction s1 as [|a s1 IH]; intros [|b s2] H Hl; simpl in *; try done.
  injection H as -> H. f_equal. apply IH; [done|lia].
Qed.

(** A number between a fixed prefix and a fixed suffix is determined by
    the text. *)
Lemma label_text_inj (pre post : string) (k k' : Z) :
  pre +:+ fmt_d k +:+ post = pre +:+ fmt_d k' +:+ post → k = k'.
Proof.
  intros H. apply (inj (String.app pre)) in H.
  apply string_app_inv_tail in H. by apply (inj pretty) in H.
Qed.

(** C2: on an input with balanced brackets within [input_bound]
    [compile_source] succeeds, and
    in its output the loop-start labels are 0, 1, 2, ... in the order they are
    written (the i-th [[] of the source gets label i: the counter starts at
    0, equals the number of [[] scanned so far in every state of the scan
    and grows by one per [[]), the loop-end labels are the same numbers,
    each once, and every jump goes to a label of its own loop.  Labels
    with different numbers have different texts. *)
Theorem labels_increasing_and_paired bytes :
  balanced bytes →
  Z.of_nat (List.length bytes) ≤ input_bound →
  (∃ c, compile_source bytes = Some (Ok c)
        ∧ start_labels (output c) = seqZ 0 (Z.of_nat (count_open bytes))
        ∧ (∀ i l, start_labels (output c) !! i = Some l
                  ↔ l = Z.of_nat i ∧ (i < count_open bytes)%nat)
        ∧ end_labels (output c) ≡ₚ start_labels (output c)
        ∧ NoDup (start_labels (output c))
        ∧ NoDup (end_labels (output c))
        ∧ Forall (λ l, 0 ≤ l ≤ INT_MAX) (start_labels (output c))
        ∧ je_targets (output c) = start_labels (output c)
        ∧ jne_targets (output c) = end_labels (output c))
  ∧ (∀ k k',
       (render (LoopStartDef k) = render (LoopStartDef k') → k = k')
       ∧ (render (LoopEndDef k) = render (LoopEndDef k') → k = k'))
  ∧ (∀ c0 src0,
       scan_state bytes c0 src0 →
       label_counter c0 = Z.of_nat (count_open (take (position src0) bytes))
       ∧ (code src0 !! position src0 = Some "["%char →
          ∃ c1, loop_body c0 src0 "["
                = Ok (c1, set_position src0 (position src0 + 1)%nat)
              ∧ output c1 = output c0 ++ loop_open_records (label_counter c0)
              ∧ label_counter c1 = label_counter c0 + 1
              ∧ label_counter c1 ≤ INT_MAX)).
Proof.
  intros Hbal Hlen. split; [|split].
  - pose proof (compile_loop_states bytes (List.length bytes) _ _ (scan_start bytes))
      as Hstates.
    destruct (compile_loop_enough (List.length bytes) (emit_header create_compiler)
                (mkSource bytes 0)) as [r Hr].
    { unfold Source_length; simpl; lia. }
    rewrite Hr in Hstates. rewrite (compile_from_loop _ _ Hr).
    destruct r as [[c src]|msg pos c].
    + destruct Hstates as [Hs Hp].
      destruct (scan_state_inv _ _ _ Hs) as [Hok Hopen Hcnt Hst Hen Hje Hjne].
      rewrite Hp, firstn_all in Hopen, Hcnt.
      pose proof (open_loops_depth _ _ Hopen) as Hd.
      rewrite (balanced_depth _ Hbal) in Hd.
      destruct (stack_view c) as [|l s] eqn:Hsv; [|simpl in Hd; lia].
      pose proof (stack_view_length c Hok) as Hl. rewrite Hsv in Hl. simpl in Hl.
      exists (emit_footer c). unfold compile_end.
      rewrite bool_decide_eq_false_2 by lia. split; [done|].
      assert (Hout : output (emit_footer c) = output c ++ footer)
        by apply output_fprintfs.
      unfold start_labels, end_labels, je_targets, jne_targets in *.
      rewrite Hout, !omap_app. simpl. rewrite !app_nil_r in *.
      rewrite Hst, Hcnt in *.
      split; [done|]. split.
      { intros i l. rewrite lookup_seqZ. split; intros [H1 H2]; split; lia. }
      split; [done|]. split; [apply NoDup_seqZ|].
      split; [rewrite Hen; apply NoDup_seqZ|].
      split; [|done].
      apply Forall_forall. intros k Hk. apply elem_of_seqZ in Hk.
      pose proof (length_filter (λ ch, ch = "["%char) bytes) as Hf.
      unfold count_open in Hk. unfold INT_MAX, input_bound in *. lia.
    + exfalso. destruct Hstates as (c0 & src0 & ch & Hs & Hch & Hb).
      destruct (scan_state_code _ _ _ Hs) as [Hcode _].
      pose proof (scan_state_inv _ _ _ Hs) as Hinv.
      pose proof (scan_inv_step bytes c0 src0 ch Hcode Hinv Hch) as Hstep.
      rewrite Hb in Hstep. destruct Hstep as (_ & _ & _ & -> & Hsv).
      rewrite Hcode in Hch.
      apply (balanced_no_excess_close bytes (position src0) Hbal Hch).
      rewrite (open_loops_depth _ _ (inv_open _ _ _ Hinv)), Hsv. done.
  - intros k k'. split; intros H.
    + by apply label_text_inj in H.
    + by apply label_text_inj in H.
  - intros c0 src0 Hs. pose proof (scan_state_inv _ _ _ Hs) as Hinv.
    split; [apply Hinv|]. intros Hch.
    destruct (compile_instruction_open c0 (inv_stack_ok _ _ _ Hinv))
      as (c1 & Hci & Hout & Hl & _).
    exists c1. rewrite (loop_body_single c0 src0 "[" eq_refl), Hci.
    split; [done|]. split; [done|]. split; [done|].
    destruct (int_variables_bounded bytes c0 src0 "+"%char Hs) as (Hcnt & _ & _).
    apply lookup_lt_Some in Hch.
    destruct (scan_state_code _ _ _ Hs) as [Hcode _]. rewrite Hcode in Hch.
    rewrite Hl, (inv_counter _ _ _ Hinv).
    pose proof (length_filter (λ ch, ch = "["%char) (take (position src0) bytes)) as Hf.
    rewrite length_take in Hf. unfold count_open.
    unfold INT_MAX, input_bound in *. lia.
Qed.

Lemma labels_increasing_and_paired_witness :
  ∃ c, compile_source (bf "+[>[-]<[.]]") = Some (Ok c)
       ∧ start_labels (output c) = [0; 1; 2]
       ∧ end_labels (output c) ≡ₚ [0; 1; 2].
Proof.
  assert (Hbal : balanced (bf "+[>[-]<[.]]")).
  { apply balanced_iff. split; reflexivity. }
  assert (Hlen : Z.of_nat (List.length (bf "+[>[-]<[.]]")) ≤ input_bound)
    by (by vm_compute).
  destruct (proj1 (labels_increasing_and_paired _ Hbal Hlen))
    as (c & Hc & Hst & _ & Hen & _).
  exists c. split; [exact Hc|]. split; [exact Hst|].
  rewrite Hen, Hst. reflexivity.
Defined.

(** ** Bytes that are not instructions *)

Lemma compile_loop_scan fuel :
  ∀ c src,
    loop_result <$> compile_loop fuel c src
    = scan fuel c (drop (position src) (code src)).
Proof.
  induction fuel as [|fuel IH]; intros c src; simpl.
  - destruct (code src !! position src) as [ch|] eqn:Hch.
    + destruct (lookup_drop_head _ _ _ Hch) as [rest ->]. done.
    + rewrite drop_ge by (by apply lookup_ge_None_1). done.
  - destruct (code src !! position src) as [ch|] eqn:Hch.
    + destruct (lookup_drop_head _ _ _ Hch) as [rest Hd]. rewrite Hd.
      destruct (foldable ch) eqn:Hf.
      * rewrite (loop_body_foldable _ _ _ _ Hd Hf), IH. simpl. f_equal.
        rewrite <- drop_drop, Hd. done.
      * rewrite (loop_body_single _ _ _ Hf).
        destruct (compile_instruction c ch) as [c'|msg pos c']; simpl; [|done].
        rewrite IH. simpl. f_equal. rewrite <- drop_drop, Hd. done.
    + rewrite drop_ge by (by apply lookup_ge_None_1). done.
Qed.

Lemma compile_scan bytes :
  compile_source bytes
  = r ← scan (List.length bytes) (emit_header create_compiler) bytes;
    Some (bind r compile_end).
Proof.
  rewrite <- (compile_loop_scan _ _ (mkSource bytes 0)).
  unfold compile_source, compile.
  destruct (compile_loop _ _ _) as [[[c src]|]|]; done.
Qed.

Lemma run_head_other ch l : head l ≠ Some ch → run ch l = 0%nat.
Proof.
  destruct l as [|x l]; simpl; [done|].
  intros H. rewrite decide_False; congruence.
Qed.

Lemma scan_nil fuel c : scan fuel c [] = Some (Ok c).
Proof. by destruct fuel. Qed.

Section strip.
Variable gone : ascii → bool.
Hypothesis gone_no_instruction : ∀ ch, gone ch = true → is_instruction ch = false.

Lemma gone_not_foldable ch : gone ch = true → foldable ch = false.
Proof.
  intros Hg. destruct (foldable ch) eqn:Hf; [|done].
  apply gone_no_instruction in Hg.
  by rewrite (foldable_is_instruction _ Hf) in Hg.
Qed.

Lemma strip_cons_kept x l :
  gone x = false → strip gone (x :: l) = x :: strip gone l.
Proof. intros H. unfold strip. by rewrite filter_cons_True. Qed.

Lemma strip_cons_gone x l : gone x = true → strip gone (x :: l) = strip gone l.
Proof. intros H. unfold strip. rewrite filter_cons_False; [done|congruence]. Qed.

Lemma length_strip l : (List.length (strip gone l) ≤ List.length l)%nat.
Proof. apply length_filter. Qed.

Lemma next_kept_head l : next_kept gone l = head (strip gone l).
Proof.
  induction l as [|x l IH]; simpl; [done|].
  destruct (gone x) eqn:Hg.
  - by rewrite strip_cons_gone.
  - by rewrite strip_cons_kept.
Qed.

Lemma unsplit_tail ch rest :
  unsplit gone (ch :: rest) = true → unsplit gone rest = true.
Proof. simpl. rewrite andb_true_iff. tauto. Qed.

(** Without a split, stripping keeps the run under the cursor and
    commutes with stepping over it. *)
Lemma unsplit_run ch rest :
  foldable ch = true → gone ch = false →
  unsplit gone (ch :: rest) = true →
  run ch (strip gone rest) = run ch rest
  ∧ drop (run ch rest) (strip gone rest) = strip gone (drop (run ch rest) rest)
  ∧ unsplit gone (drop (run ch rest) rest) = true.
Proof.
  intros Hf Hg. induction rest as [|x r IH]; intros Hu; [done|].
  pose proof (unsplit_tail _ _ Hu) as Hu'.
  destruct (decide (x = ch)) as [-> | Hne].
  - rewrite (strip_cons_kept _ _ Hg), !run_head. simpl.
    destruct (IH Hu') as (-> & H2 & H3). done.
  - simpl run. rewrite (decide_False (P := x = ch)) by done. simpl drop.
    split; [|done].
    destruct (gone x) eqn:Hgx.
    + rewrite (strip_cons_gone _ _ Hgx).
      apply run_head_other. rewrite <- next_kept_head.
      simpl in Hu. rewrite Hf, Hg, Hgx in Hu. simpl in Hu.
      rewrite andb_true_iff, negb_true_iff, bool_decide_eq_false in Hu.
      tauto.
    + rewrite (strip_cons_kept _ _ Hgx). simpl. by rewrite decide_False.
Qed.

(** Bytes that are no instructions and split no run can be removed. *)
Lemma scan_strip :
  ∀ fuel1 fuel2 c l,
    (List.length l ≤ fuel1)%nat →
    (List.length (strip gone l) ≤ fuel2)%nat →
    unsplit gone l = true →
    scan fuel1 c l = scan fuel2 c (strip gone l).
Proof.
  induction fuel1 as [|fuel1 IH]; intros fuel2 c l H1 H2 Hu.
  { destruct l; [|simpl in H1; lia]. by rewrite !scan_nil. }
  destruct l as [|ch rest]; [by rewrite !scan_nil|].
  pose proof (unsplit_tail _ _ Hu) as Hu'.
  simpl in H1.
  destruct (gone ch) eqn:Hg.
  - rewrite (strip_cons_gone _ _ Hg) in *. simpl.
    rewrite (gone_not_foldable _ Hg).
    rewrite (compile_instruction_other _ _ (gone_no_instruction _ Hg)).
    apply IH; [lia|done|done].
  - rewrite (strip_cons_kept _ _ Hg) in *. simpl in H2.
    destruct fuel2 as [|fuel2]; [lia|]. simpl.
    destruct (foldable ch) eqn:Hf.
    + destruct (unsplit_run ch rest Hf Hg Hu) as (Hrun & Hdrop & Hu2).
      pose proof (run_le ch rest).
      rewrite Hrun, Hdrop.
      apply IH; [rewrite length_drop; lia| |done].
      rewrite <- Hdrop, length_drop. lia.
    + destruct (compile_instruction c ch); [|done].
      apply IH; [lia|lia|done].
Qed.

Lemma compile_strip bytes :
  unsplit gone bytes = true → compile_source bytes = compile_source (strip gone bytes).
Proof.
  intros Hu. rewrite !compile_scan.
  by rewrite (scan_strip _ (List.length (strip gone bytes)) _ bytes).
Qed.
End strip.

Lemma loop_body_noise c src ch :
  is_instruction ch = false →
  loop_body c src ch = Ok (c, set_position src (position src + 1)%nat).
Proof.
  intros Hi.
  assert (Hf : foldable ch = false).
  { destruct (foldable ch) eqn:Hf; [|done].
    by rewrite (foldable_is_instruction _ Hf) in Hi. }
  by rewrite (loop_body_single _ _ _ Hf), (compile_instruction_other _ _ Hi).
Qed.

Lemma inserted_strip p q :
  inserted p q → strip is_noise q = strip is_noise p.
Proof.
  induction 1 as [|x p q _ IH|x p q Hx _ IH]; [done| |].
  - unfold strip in *. rewrite !filter_cons, IH. done.
  - rewrite strip_cons_gone; [done|]. unfold is_noise. by rewrite Hx.
Qed.

Lemma inserted_next_kept p q :
  inserted p q → next_kept is_noise q = next_kept is_noise p.
Proof.
  induction 1 as [|x p q _ IH|x p q Hx _ IH]; simpl; [done| |].
  - by rewrite IH.
  - unfold is_noise at 1. by rewrite Hx.
Qed.

Lemma inserted_unsplit p q :
  inserted p q → unsplit is_noise q = true → unsplit is_noise p = true.
Proof.
  induction 1 as [|x p q Hpq IH|x p q Hx _ IH]; [done| |].
  - simpl. rewrite !andb_true_iff. intros [Hhead Htail].
    split; [|by apply IH].
    rewrite (inserted_next_kept _ _ Hpq) in Hhead.
    destruct (foldable x && negb (is_noise x)) eqn:Hfx; [|done].
    destruct (bool_decide (next_kept is_noise p = Some x)) eqn:Hnk;
      [|by rewrite andb_false_r].
    rewrite !andb_true_r in *. simpl in *.
    destruct Hpq as [|y p q Hpq|y p q Hy Hpq]; simpl in *; [done|done|].
    unfold is_noise in Hhead at 1. by rewrite Hy in Hhead.
  - intros Hu. apply IH. simpl in Hu. rewrite andb_true_iff in Hu. tauto.
Qed.

(** C7, as the code has it: a byte outside the eight instruction
    characters is stepped over, with no error and nothing written; and
    when such bytes are inserted into a program, the result of
    [compile_source] (the output, or the error) is that of the program,
    and that of the text with all such bytes removed, provided no such
    byte lies between two equal bytes among [+ - > <], where it would
    split the run. *)
Theorem noise_bytes_are_inert program bytes :
  inserted program bytes →
  unsplit is_noise bytes = true →
  (∀ c src ch, is_instruction ch = false →
     loop_body c src ch = Ok (c, set_position src (position src + 1)%nat))
  ∧ compile_source bytes = compile_source (strip is_noise bytes)
  ∧ compile_source bytes = compile_source program.
Proof.
  intros Hins Hu.
  assert (Hgone : ∀ ch, is_noise ch = true → is_instruction ch = false).
  { intros ch. unfold is_noise. by rewrite negb_true_iff. }
  split; [apply loop_body_noise|].
  split; [by apply compile_strip|].
  rewrite (compile_strip is_noise Hgone bytes Hu).
  rewrite (inserted_strip _ _ Hins).
  symmetry. apply (compile_strip is_noise Hgone).
  by apply (inserted_unsplit _ _ Hins).
Qed.

Lemma noise_bytes_are_inert_witness :
  compile_source (bf "in: , ++[->+<] .") = compile_source (bf ",++[->+<].").
Proof.
  apply (noise_bytes_are_inert (bf ",++[->+<].") (bf "in: , ++[->+<] ."));
    [|reflexivity].
  do 4 (apply inserted_noise; [reflexivity|]).
  apply inserted_same. apply inserted_noise; [reflexivity|].
  do 8 apply inserted_same.
  apply inserted_noise; [reflexivity|].
  apply inserted_same. apply inserted_nil.
Defined.

(** C7 as stated fails: a blank inserted between the two [+] of [++] is
    skipped, but the two [+] are then written as two [incb] instead of one
    [addb $2]. *)
Lemma inserted_blank_splits_run :
  inserted (bf "++") (bf "+ +")
  ∧ strip is_noise (bf "+ +") = bf "++"
  ∧ ∃ c1 c2,
      compile_source (bf "+ +") = Some (Ok c1)
      ∧ compile_source (bf "++") = Some (Ok c2)
      ∧ output c1 = header ++ [IncB; IncB] ++ footer
      ∧ output c2 = header ++ [AddB 2] ++ footer
      ∧ render_all (output c1) ≠ render_all (output c2).
Proof.
  split.
  { apply inserted_same. apply inserted_noise; [reflexivity|].
    apply inserted_same. apply inserted_nil. }
  split; [reflexivity|].
  eexists _, _. split; [reflexivity|]. split; [reflexivity|].
  split; [reflexivity|]. split; [reflexivity|].
  vm_compute. intros H. discriminate H.
Qed.

(** C10, as the code has it: [strchr] finds the null byte in the
    instruction string (it matches the terminator), so the null byte goes
    through [compile_optimized]; there it is no case of any [switch], so
    nothing is written and the compiler is unchanged, and the cursor moves
    by one.  The result of [compile_source] is that of the text with the
    null bytes removed, provided no null byte lies between two equal bytes
    among [+ - > <], where it would split the run. *)
Theorem nul_byte_is_silent :
  strchr "+-><.,[]" "000" = true
  ∧ (∀ c src, compile_optimized c src "000" = Ok (c, src))
  ∧ (∀ c src, loop_body c src "000"
              = Ok (c, set_position src (position src + 1)%nat))
  ∧ (∀ bytes, unsplit is_nul bytes = true →
              compile_source bytes = compile_source (strip is_nul bytes)).
Proof.
  split; [reflexivity|]. split; [|split].
  - intros c src. unfold compile_optimized.
    change (foldable "000") with false. by rewrite andb_false_r.
  - intros c src. by apply loop_body_noise.
  - intros bytes Hu. apply compile_strip; [|done].
    intros ch. unfold is_nul. rewrite bool_decide_eq_true. by intros ->.
Qed.

Lemma nul_byte_is_silent_witness :
  compile_source ["+"; "+"; "000"; "["; "000"; "000"; "-"; "]"; "000"]%char
  = compile_source (bf "++[-]").
Proof.
  apply (proj2 (proj2 (proj2 nul_byte_is_silent))
           ["+"; "+"; "000"; "["; "000"; "000"; "-"; "]"; "000"]%char).
  reflexivity.
Defined.

(** C10 as stated fails: a null byte between two [+] splits the run. *)
Lemma nul_byte_splits_run :
  strip is_nul ["+"; "000"; "+"]%char = bf "++"
  ∧ ∃ c1 c2,
      compile_source ["+"; "000"; "+"]%char = Some (Ok c1)
      ∧ compile_source (bf "++") = Some (Ok c2)
      ∧ output c1 = header ++ [IncB; IncB] ++ footer
      ∧ output c2 = header ++ [AddB 2] ++ footer
      ∧ render_all (output c1) ≠ render_all (output c2).
Proof.
  split; [reflexivity|].
  eexists _, _. split; [reflexivity|]. split; [reflexivity|].
  split; [reflexivity|]. split; [reflexivity|].
  vm_compute. intros H. discriminate H.
Qed.

(* ================================================================= *)
(** * Further properties of the code *)

(** ** The loop as a function of the text *)

Lemma scan_fuel_any n :
  ∀ l c f1 f2,
    (List.length l ≤ n)%nat → (List.length l ≤ f1)%nat → (List.length l ≤ f2)%nat →
    scan f1 c l = scan f2 c l.
Proof.
  induction n as [|n IH]; intros l c f1 f2 Hn H1 H2.
  { destruct l; [by rewrite !scan_nil|simpl in Hn; lia]. }
  destruct l as [|ch rest]; [by rewrite !scan_nil|].
  simpl in Hn, H1, H2.
  destruct f1 as [|f1]; [lia|]. destruct f2 as [|f2]; [lia|]. simpl.
  destruct (foldable ch).
  - pose proof (run_le ch rest).
    apply IH; rewrite length_drop; lia.
  - destruct (compile_instruction c ch); [|done].
    apply IH; lia.
Qed.

Lemma scan_fuel f c l :
  (List.length l ≤ f)%nat → scan f c l = scan_all c l.
Proof. intros H. by apply (scan_fuel_any (List.length l)). Qed.

Lemma scan_all_nil c : scan_all c [] = Some (Ok c).
Proof. reflexivity. Qed.

Lemma scan_all_foldable c ch rest :
  foldable ch = true →
  scan_all c (ch :: rest)
  = scan_all (fprintf c (run_op ch (Z.of_nat (S (run ch rest)))))
             (drop (run ch rest) rest).
Proof.
  intros Hf. unfold scan_all at 1. simpl. rewrite Hf.
  apply scan_fuel. rewrite length_drop. lia.
Qed.

Lemma scan_all_single c ch rest :
  foldable ch = false →
  scan_all c (ch :: rest)
  = match compile_instruction c ch with
    | Ok c' => scan_all c' rest
    | Exit msg pos c' => Some (Exit msg pos c')
    end.
Proof. intros Hf. unfold scan_all at 1. simpl. by rewrite Hf. Qed.

Lemma compile_source_scan_all bytes :
  compile_source bytes
  = r ← scan_all (emit_header create_compiler) bytes; Some (bind r compile_end).
Proof. apply compile_scan. Qed.

Lemma scan_all_total c l : ∃ r, scan_all c l = Some r.
Proof.
  unfold scan_all.
  rewrite <- (compile_loop_scan _ c (mkSource l 0)).
  destruct (compile_loop_enough (List.length l) c (mkSource l 0)) as [r ->].
  { unfold Source_length; simpl; lia. }
  by eexists.
Qed.

(** ** Composition *)

Lemma run_app_short ch l k :
  (run ch l < List.length l)%nat → run ch (l ++ k) = run ch l.
Proof.
  induction l as [|x l IH]; simpl; [lia|].
  case_decide as Hx; [|done]. intros Hr. rewrite IH; [done|lia].
Qed.

Lemma run_app_full ch l k :
  run ch l = List.length l → head k ≠ Some ch → run ch (l ++ k) = run ch l.
Proof.
  induction l as [|x l IH]; simpl.
  - intros _ Hk. by apply run_head_other.
  - case_decide as Hx; [|done]. intros [= Hr] Hk. by rewrite IH.
Qed.

Lemma last_drop_some {A} (l : list A) n :
  (n < List.length l)%nat → last (drop n l) = last l.
Proof.
  revert n. induction l as [|x l IH]; intros n Hn; simpl in *; [lia|].
  destruct n as [|n]; [done|]. simpl. rewrite IH by lia.
  destruct l; [simpl in Hn; lia|done].
Qed.

Lemma last_run_full ch rest :
  run ch rest = List.length rest → last (ch :: rest) = Some ch.
Proof.
  revert ch. induction rest as [|x rest IH]; intros ch; [done|].
  simpl. case_decide as Hx; [|done]. subst x. intros [= H].
  specialize (IH ch H). destruct rest; [done|]. exact IH.
Qed.

Lemma no_join_nil_l l2 : no_join [] l2 = true.
Proof. reflexivity. Qed.

(** A run at the start of [l1 ++ l2] is the run at the start of [l1], and
    the rest of [l1] is still not joined to [l2]. *)
Lemma no_join_run ch rest l2 :
  foldable ch = true →
  no_join (ch :: rest) l2 = true →
  run ch (rest ++ l2) = run ch rest
  ∧ no_join (drop (run ch rest) rest) l2 = true.
Proof.
  intros Hf Hj. pose proof (run_le ch rest) as Hle.
  destruct (decide (run ch rest = List.length rest)) as [Hfull|Hshort].
  - split.
    + apply run_app_full; [done|].
      unfold no_join in Hj. rewrite (last_run_full _ _ Hfull) in Hj.
      destruct (head l2) as [b|]; [|done].
      rewrite Hf in Hj. simpl in Hj.
      rewrite negb_true_iff, bool_decide_eq_false in Hj. congruence.
    + rewrite Hfull, drop_all. done.
  - split; [apply run_app_short; lia|].
    unfold no_join in *. rewrite last_drop_some by lia.
    destruct rest as [|x rest]; [simpl in *; lia|]. exact Hj.
Qed.

Lemma no_join_tail ch rest l2 :
  no_join (ch :: rest) l2 = true → rest = [] ∨ no_join rest l2 = true.
Proof. destruct rest as [|x rest]; [by left|by right]. Qed.

Lemma scan_all_app_gen n :
  ∀ l1 l2 c,
    (List.length l1 ≤ n)%nat →
    no_join l1 l2 = true →
    scan_all c (l1 ++ l2)
    = match scan_all c l1 with
      | Some (Ok c1) => scan_all c1 l2
      | other => other
      end.
Proof.
  induction n as [|n IH]; intros l1 l2 c Hn Hj.
  { destruct l1; [done|simpl in Hn; lia]. }
  destruct l1 as [|ch rest]; [done|]. simpl in Hn.
  change ((ch :: rest) ++ l2) with (ch :: (rest ++ l2)).
  destruct (foldable ch) eqn:Hf.
  - rewrite !scan_all_foldable by done.
    destruct (no_join_run ch rest l2 Hf Hj) as [Hrun Hj'].
    pose proof (run_le ch rest). rewrite Hrun.
    rewrite drop_app_le by done.
    apply IH; [rewrite length_drop; lia|done].
  - rewrite !scan_all_single by done.
    destruct (compile_instruction c ch) as [c'|]; [|done].
    destruct (no_join_tail _ _ _ Hj) as [-> | Hj'].
    + done.
    + apply IH; [lia|done].
Qed.

Lemma run_loop_scan_all c bytes : run_loop c bytes = scan_all c bytes.
Proof. unfold run_loop, scan_all. by rewrite (compile_loop_scan _ c (mkSource bytes 0)). Qed.

(** X1: the loop composes.  When the last byte of [l1] and the first byte
    of [l2] are not the same byte among [+ - > <], running the loop on
    [l1 ++ l2] is running it on [l1] and then, from the compiler it leaves
    (label counter, loop stack and output), on [l2]; an exit in [l1] is
    the exit of the whole. *)
Theorem loop_composes c l1 l2 :
  no_join l1 l2 = true →
  run_loop c (l1 ++ l2)
  = match run_loop c l1 with
    | Some (Ok c1) => run_loop c1 l2
    | other => other
    end.
Proof.
  intros Hj. rewrite !run_loop_scan_all.
  rewrite (scan_all_app_gen (List.length l1) l1 l2 c (le_n _) Hj).
  destruct (scan_all c l1) as [[c1|]|]; [|done..].
  by rewrite run_loop_scan_all.
Qed.

Lemma loop_composes_witness :
  run_loop create_compiler (bf "++[" ++ bf "--]>")
  = match run_loop create_compiler (bf "++[") with
    | Some (Ok c1) => run_loop c1 (bf "--]>")
    | other => other
    end.
Proof. apply loop_composes. reflexivity. Defined.

(** Without the condition the two halves of a run are written apart. *)
Lemma loop_composes_needs_no_join :
  no_join (bf "++[-") (bf "-]>") = false
  ∧ run_loop create_compiler (bf "++[-" ++ bf "-]>")
    ≠ match run_loop create_compiler (bf "++[-") with
      | Some (Ok c1) => run_loop c1 (bf "-]>")
      | other => other
      end.
Proof. split; [reflexivity|]. vm_compute. intros H. discriminate H. Qed.

(** ** How a compilation ends *)

(** The three ways [compile_source] ends, each with the state of the scan
    it ends in. *)
Lemma compile_source_cases bytes :
  (∃ c src, scan_state bytes c src ∧ position src = List.length bytes
            ∧ stack_view c = []
            ∧ compile_source bytes = Some (Ok (emit_footer c)))
  ∨ (∃ c src, scan_state bytes c src ∧ position src = List.length bytes
              ∧ stack_view c ≠ []
              ∧ compile_source bytes = Some (Exit Unmatched_open 0 c))
  ∨ (∃ c src, scan_state bytes c src
              ∧ code src !! position src = Some "]"%char
              ∧ stack_view c = []
              ∧ compile_source bytes = Some (Exit Unmatched_close 0 c)).
Proof.
  pose proof (compile_loop_states bytes (List.length bytes) _ _ (scan_start bytes))
    as Hstates.
  destruct (compile_loop_enough (List.length bytes) (emit_header create_compiler)
              (mkSource bytes 0)) as [r Hr].
  { unfold Source_length; simpl; lia. }
  rewrite Hr in Hstates. rewrite (compile_from_loop _ _ Hr).
  destruct r as [[c src]|msg pos c].
  - destruct Hstates as [Hs Hp].
    pose proof (stack_view_length c (inv_stack_ok _ _ _ (scan_state_inv _ _ _ Hs)))
      as Hl.
    cbn beta iota. unfold compile_end.
    destruct (stack_view c) as [|k s] eqn:Hsv.
    + left. exists c, src. simpl in Hl.
      rewrite (bool_decide_eq_false_2 (loop_stack_top c >= 0)) by lia. done.
    + right; left. exists c, src. simpl in Hl.
      rewrite (bool_decide_eq_true_2 (loop_stack_top c >= 0)) by lia.
      rewrite ?Hsv. done.
  - right; right. destruct Hstates as (c0 & src0 & ch & Hs & Hch & Hb).
    destruct (scan_state_code _ _ _ Hs) as [Hcode _].
    pose proof (scan_inv_step bytes c0 src0 ch Hcode (scan_state_inv _ _ _ Hs) Hch)
      as Hstep.
    rewrite Hb in Hstep. destruct Hstep as (-> & -> & -> & -> & Hsv).
    by exists c0, src0.
Qed.

Lemma compile_source_outcome bytes :
  (∃ c, compile_source bytes = Some (Ok c)
        ∧ never_below 0 bytes = true ∧ depth bytes = 0)
  ∨ (∃ c, compile_source bytes = Some (Exit Unmatched_open 0 c)
          ∧ never_below 0 bytes = true ∧ 0 < depth bytes)
  ∨ (∃ c, compile_source bytes = Some (Exit Unmatched_close 0 c)
          ∧ never_below 0 bytes = false).
Proof.
  destruct (compile_source_cases bytes)
    as [(c & src & Hs & Hp & Hsv & Hc)|[(c & src & Hs & Hp & Hsv & Hc)
       |(c & src & Hs & Hch & Hsv & Hc)]];
    pose proof (inv_open _ _ _ (scan_state_inv _ _ _ Hs)) as Hopen.
  - left. rewrite Hp, firstn_all, Hsv in Hopen. eexists. split; [done|].
    split; [by eapply open_loops_never_below|].
    by rewrite (open_loops_depth _ _ Hopen).
  - right; left. rewrite Hp, firstn_all in Hopen. eexists. split; [done|].
    split; [by eapply open_loops_never_below|].
    rewrite (open_loops_depth _ _ Hopen). destruct (stack_view c); [done|simpl; lia].
  - right; right. eexists. split; [done|].
    destruct (scan_state_code _ _ _ Hs) as [Hcode _]. rewrite Hcode in Hch.
    rewrite Hsv in Hopen. pose proof (open_loops_depth _ _ Hopen) as Hd.
    rewrite <- (take_drop_middle _ _ _ Hch), never_below_app, Hd. simpl.
    apply andb_false_r.
Qed.

(** X2: on an input within [input_bound], how [compile_source] ends is
    decided by the brackets alone.  It succeeds exactly on the balanced
    texts; it ends with "Unmatched ']'" exactly when some prefix has more
    []] than [[]; it ends with "Unmatched '['" exactly when no prefix has,
    and the whole text has more [[] than []]. *)
Theorem outcome_by_brackets bytes :
  Z.of_nat (List.length bytes) ≤ input_bound →
  ((∃ c, compile_source bytes = Some (Ok c)) ↔ balanced bytes)
  ∧ ((∃ pos c, compile_source bytes = Some (Exit Unmatched_close pos c))
     ↔ never_below 0 bytes = false)
  ∧ ((∃ pos c, compile_source bytes = Some (Exit Unmatched_open pos c))
     ↔ never_below 0 bytes = true ∧ 0 < depth bytes).
Proof.
  intros _.
  destruct (compile_source_outcome bytes)
    as [(c & Hc & Hn & Hd)|[(c & Hc & Hn & Hd)|(c & Hc & Hn)]];
    rewrite Hc, balanced_iff, Hn.
  - split; [|split].
    + split; [done|]. intros _. by exists c.
    + split; [intros (? & ? & [=])|done].
    + split; [intros (? & ? & [=])|]. intros [_ ?]. lia.
  - split; [|split].
    + split; [intros (? & [=])|]. intros [_ ?]. lia.
    + split; [intros (? & ? & [=])|done].
    + split; [done|]. intros _. by exists 0, c.
  - split; [|split].
    + split; [intros (? & [=])|]. intros [[=] _].
    + split; [done|]. intros _. by exists 0, c.
    + split; [intros (? & ? & [=])|]. intros [[=] _].
Qed.

Lemma outcome_by_brackets_witness :
  (∃ c, compile_source (bf "+[[-]>]") = Some (Ok c))
  ∧ (∃ pos c, compile_source (bf "[]]+[") = Some (Exit Unmatched_close pos c))
  ∧ (∃ pos c, compile_source (bf "[[]") = Some (Exit Unmatched_open pos c)).
Proof.
  split; [|split].
  - assert (Hlen : Z.of_nat (List.length (bf "+[[-]>]")) ≤ input_bound)
      by (by vm_compute).
    apply (proj1 (outcome_by_brackets _ Hlen)).
    apply balanced_iff. split; reflexivity.
  - assert (Hlen : Z.of_nat (List.length (bf "[]]+[")) ≤ input_bound)
      by (by vm_compute).
    apply (proj1 (proj2 (outcome_by_brackets _ Hlen))). reflexivity.
  - assert (Hlen : Z.of_nat (List.length (bf "[[]")) ≤ input_bound)
      by (by vm_compute).
    apply (proj2 (proj2 (outcome_by_brackets _ Hlen))). split; reflexivity.
Defined.

(** X3: the line [error] writes never tells where the bracket is.  Every
    failure of [compile_source] passes position 0 to [error], so stderr
    holds one of two fixed lines. *)
Theorem error_line_is_fixed bytes msg pos c :
  compile_source bytes = Some (Exit msg pos c) →
  pos = 0
  ∧ (error_text msg pos = "Error at position 0: Unmatched ']'" +:+ nl
     ∨ error_text msg pos = "Error at position 0: Unmatched '['" +:+ nl).
Proof.
  intros Hc.
  destruct (compile_source_outcome bytes)
    as [(c' & Hc' & _)|[(c' & Hc' & _)|(c' & Hc' & _)]];
    rewrite Hc' in Hc; [done| |]; injection Hc as <- <- _.
  - split; [done|]. by right.
  - split; [done|]. by left.
Qed.

Lemma error_line_is_fixed_witness :
  error_text Unmatched_close 0 = "Error at position 0: Unmatched ']'" +:+ nl
  ∨ error_text Unmatched_close 0 = "Error at position 0: Unmatched '['" +:+ nl.
Proof.
  destruct (compile_source (replicate 40 "+"%char ++ bf "]")) as [[c|msg pos c]|] eqn:Hc;
    [discriminate Hc| |discriminate Hc].
  pose proof (error_line_is_fixed _ _ _ _ Hc) as [_ Hline].
  vm_compute in Hc. injection Hc as <- <- _. exact Hline.
Defined.

(** ** Shape of the output *)

Lemma frame_records_kind a : a ∈ header ++ footer → frame_kind a.
Proof.
  assert (H : Forall frame_kind (header ++ footer)) by (repeat constructor).
  rewrite Forall_forall in H. apply H.
Qed.

Lemma body_record_other a : ¬ frame_kind a → body_record a.
Proof. intros H Hin. by apply H, frame_records_kind. Qed.

Lemma body_record_run_op ch n : body_record (run_op ch n).
Proof.
  apply body_record_other. unfold run_op, folded_op, unit_op.
  case_bool_decide; repeat case_decide; simpl; tauto.
Qed.

Lemma body_records_io :
  Forall body_record output_seq ∧ Forall body_record input_seq.
Proof.
  split; unfold body_record.
  - apply (bool_decide_unpack (Forall (λ a, a ∉ header ++ footer) output_seq)).
    by vm_compute.
  - apply (bool_decide_unpack (Forall (λ a, a ∉ header ++ footer) input_seq)).
    by vm_compute.
Qed.

Lemma body_record_cmpb : body_record (Verbatim ("    cmpb $0, (%r12)" +:+ nl)).
Proof.
  unfold body_record.
  apply (bool_decide_unpack (Verbatim ("    cmpb $0, (%r12)" +:+ nl) ∉ header ++ footer)).
  by vm_compute.
Qed.

Lemma body_records_open k : Forall body_record (loop_open_records k).
Proof.
  repeat constructor; try (apply body_record_other; simpl; tauto).
  apply body_record_cmpb.
Qed.

Lemma body_records_close k : Forall body_record (loop_close_records k).
Proof.
  repeat constructor; try (apply body_record_other; simpl; tauto).
  apply body_record_cmpb.
Qed.

Lemma plain_records_io :
  Forall plain_record output_seq ∧ Forall plain_record input_seq.
Proof. split; repeat constructor. Qed.

Lemma compile_instruction_io_records c ch :
  ch = "."%char ∨ ch = ","%char →
  compile_instruction c ch = Ok (fprintfs c (io_records ch)).
Proof. by intros [-> | ->]. Qed.

Lemma io_records_plain_body ch :
  Forall plain_record (io_records ch) ∧ Forall body_record (io_records ch).
Proof.
  destruct plain_records_io, body_records_io.
  unfold io_records. repeat case_decide; done.
Qed.

(** What one iteration does to the output and to the loop stack: it
    appends records that are no labels and no jumps and keeps the stack,
    or appends the records of a [[] and pushes their label, or pops a
    label and appends the records of a []] with it. *)
Lemma loop_body_shape c src ch c' src' :
  stack_ok c →
  code src !! position src = Some ch →
  loop_body c src ch = Ok (c', src') →
  (∃ l, output c' = output c ++ l ∧ Forall plain_record l
        ∧ Forall body_record l ∧ stack_view c' = stack_view c)
  ∨ (output c' = output c ++ loop_open_records (label_counter c)
     ∧ stack_view c' = label_counter c :: stack_view c)
  ∨ (∃ k, stack_view c = k :: stack_view c'
          ∧ output c' = output c ++ loop_close_records k).
Proof.
  intros Hok Hch Hb.
  destruct (lookup_drop_head _ _ _ Hch) as [rest Hd].
  destruct (foldable ch) eqn:Hf.
  { rewrite (loop_body_foldable _ _ _ _ Hd Hf) in Hb. injection Hb as <- <-.
    left. eexists [_]. split; [reflexivity|].
    split; [|split; [|done]].
    - constructor; [apply run_op_no_label|constructor].
    - constructor; [apply body_record_run_op|constructor]. }
  rewrite (loop_body_single _ _ _ Hf) in Hb.
  destruct (decide (ch = "["%char)) as [-> | Hno].
  { destruct (compile_instruction_open c Hok) as (c1 & Hci & Hout & _ & Hv & _).
    rewrite Hci in Hb. injection Hb as <- <-. right; left. done. }
  destruct (decide (ch = "]"%char)) as [-> | Hnc].
  { destruct (stack_view c) as [|k s] eqn:Hsv.
    - by rewrite (compile_instruction_close_empty c Hok Hsv) in Hb.
    - destruct (compile_instruction_close c k s Hok Hsv)
        as (c1 & Hci & Hout & _ & Hv & _).
      rewrite Hci in Hb. injection Hb as <- <-. right; right.
      exists k. by rewrite Hv. }
  left. destruct (is_instruction ch) eqn:Hi.
  - assert (ch = "."%char ∨ ch = ","%char) as Hio.
    { unfold is_instruction, foldable in *.
      rewrite !orb_true_iff, !bool_decide_eq_true in Hi.
      rewrite !orb_false_iff, !bool_decide_eq_false in Hf. tauto. }
    rewrite (compile_instruction_io_records c ch Hio) in Hb.
    injection Hb as <- <-. exists (io_records ch).
    rewrite output_fprintfs, stack_view_fprintfs.
    destruct (io_records_plain_body ch). done.
  - rewrite (compile_instruction_other _ _ Hi) in Hb. injection Hb as <- <-.
    exists []. by rewrite app_nil_r.
Qed.

Lemma structured_app u v : structured u → structured v → structured (u ++ v).
Proof.
  intros Hu Hv. induction Hu as [|a l Ha _ IH|k u l Hu _ _ IH]; simpl.
  - done.
  - by constructor.
  - change (LoopStartDef k :: Verbatim ("    cmpb $0, (%r12)" +:+ nl)
              :: JeLoopEnd k :: (u ++ loop_close_records k ++ l) ++ v)
      with (loop_open_records k ++ (u ++ loop_close_records k ++ l) ++ v).
    rewrite <- !app_assoc. by constructor.
Qed.

Lemma structured_plain_list l : Forall plain_record l → structured l.
Proof. induction 1; by constructor. Qed.

Lemma structured_open_app l s u :
  structured_open l s → structured u → structured_open (l ++ u) s.
Proof.
  intros Hl Hu. destruct Hl as [l Hl|l s k b Hl Hb].
  - constructor. by apply structured_app.
  - rewrite <- !app_assoc. constructor; [done|]. by apply structured_app.
Qed.

Lemma structured_open_push l s k :
  structured_open l s → structured_open (l ++ loop_open_records k) (k :: s).
Proof.
  intros Hl. rewrite <- (app_nil_r (loop_open_records k)).
  constructor; [done|constructor].
Qed.

Lemma structured_open_pop l s k :
  structured_open l (k :: s) → structured_open (l ++ loop_close_records k) s.
Proof.
  inversion 1 as [|l0 s0 k0 u Hl0 Hu]; subst.
  rewrite <- !app_assoc.
  apply structured_open_app; [done|].
  rewrite <- (app_nil_r (loop_close_records k)). by constructor; [|constructor].
Qed.

Lemma plain_frame :
  Forall plain_record header ∧ Forall plain_record footer.
Proof. split; repeat constructor. Qed.

Lemma output_inv_start : output_inv (emit_header create_compiler).
Proof.
  split.
  - exists []. split; [reflexivity|constructor].
  - constructor. apply structured_plain_list, plain_frame.
Qed.

Lemma output_inv_step c src ch c' src' :
  stack_ok c → output_inv c →
  code src !! position src = Some ch →
  loop_body c src ch = Ok (c', src') →
  output_inv c'.
Proof.
  intros Hok [(body & Hout & Hbody) Hst] Hch Hb.
  destruct (loop_body_shape _ _ _ _ _ Hok Hch Hb)
    as [(l & Ho & Hpl & Hbl & Hv)|[[Ho Hv]|(k & Hv & Ho)]].
  - split.
    + exists (body ++ l). rewrite Ho, Hout, app_assoc. split; [done|].
      by apply Forall_app.
    + rewrite Ho, Hv. apply structured_open_app; [done|].
      by apply structured_plain_list.
  - split.
    + exists (body ++ loop_open_records (label_counter c)).
      rewrite Ho, Hout, app_assoc. split; [done|].
      apply Forall_app. split; [done|apply body_records_open].
    + rewrite Ho, Hv. by apply structured_open_push.
  - split.
    + exists (body ++ loop_close_records k).
      rewrite Ho, Hout, app_assoc. split; [done|].
      apply Forall_app. split; [done|apply body_records_close].
    + rewrite Ho. rewrite Hv in Hst. by apply structured_open_pop.
Qed.

Lemma scan_state_output bytes c src : scan_state bytes c src → output_inv c.
Proof.
  induction 1 as [|c src ch c' src' Hs IH Hch Hb].
  - apply output_inv_start.
  - eapply output_inv_step; [|done..].
    apply (scan_state_inv _ _ _ Hs).
Qed.

(** *** Where a text can stand in the output *)

Lemma string_app_nil_r (s : string) : s +:+ "" = s.
Proof.
  induction s as [|a s IH]; [done|].
  change (String a s +:+ "") with (String a (s +:+ "")). by rewrite IH.
Qed.

Lemma string_app_assoc (s1 s2 s3 : string) :
  (s1 +:+ s2) +:+ s3 = s1 +:+ s2 +:+ s3.
Proof.
  induction s1 as [|a s1 IH]; [done|].
  change ((String a s1 +:+ s2) +:+ s3) with (String a ((s1 +:+ s2) +:+ s3)).
  by rewrite IH.
Qed.

Lemma prefix_sep needle : ∀ s a s2,
  char_in a needle = false →
  String.prefix needle (s +:+ String a s2) = String.prefix needle s.
Proof.
  induction needle as [|b n IH]; intros s a s2 Ha; [by destruct s|].
  simpl in Ha. apply orb_false_iff in Ha as [Hab Ha].
  apply bool_decide_eq_false in Hab.
  destruct s as [|c s]; simpl.
  - destruct (ascii_dec b a); [congruence|done].
  - destruct (ascii_dec b c); [by apply IH|done].
Qed.

(** A character that is not in [needle] separates the text. *)
Lemma occurs_sep needle s1 a s2 :
  char_in a needle = false →
  occurs needle (s1 +:+ String a s2) = occurs needle s1 || occurs needle s2.
Proof.
  intros Ha. induction s1 as [|c s1 IH].
  - change ("" +:+ String a s2) with (String a s2).
    cbn [occurs]. rewrite <- (prefix_sep needle "" a s2 Ha).
    change ("" +:+ String a s2) with (String a s2).
    by rewrite orb_false_r.
  - change (String c s1 +:+ String a s2) with (String c (s1 +:+ String a s2)).
    cbn [occurs]. rewrite IH.
    change (String c (s1 +:+ String a s2)) with (String c s1 +:+ String a s2).
    rewrite (prefix_sep needle (String c s1) a s2 Ha). by rewrite orb_assoc.
Qed.

Lemma occurs_outside needle d :
  needle ≠ EmptyString → chars_outside needle d = true → occurs needle d = false.
Proof.
  intros Hne. induction d as [|a d IH]; simpl.
  - by destruct needle.
  - intros [Ha Hd]%andb_true_iff. apply negb_true_iff in Ha.
    rewrite (IH Hd), orb_false_r.
    destruct needle as [|b n]; [done|]. simpl.
    simpl in Ha. apply orb_false_iff in Ha as [Hab _].
    apply bool_decide_eq_false in Hab.
    destruct (ascii_dec b a); [congruence|done].
Qed.

Lemma occurs_outside_tail needle s d :
  needle ≠ EmptyString → chars_outside needle d = true →
  occurs needle (s +:+ d) = occurs needle s.
Proof.
  intros Hne Hd. destruct d as [|a d].
  - by rewrite string_app_nil_r.
  - simpl in Hd. apply andb_true_iff in Hd as [Ha Hd]. apply negb_true_iff in Ha.
    rewrite (occurs_sep _ _ _ _ Ha), (occurs_outside _ _ Hne Hd). apply orb_false_r.
Qed.

Lemma pretty_N_char_digit x : digit_like (pretty_N_char x) = true.
Proof. unfold pretty_N_char. by repeat case_match. Qed.

Lemma pretty_N_go_digits x : ∀ s,
  all_digit_like s = true → all_digit_like (pretty_N_go x s) = true.
Proof.
  induction (N.lt_wf_0 x) as [x _ IH]; intros s Hs.
  assert (x = 0 ∨ 0 < x)%N as [-> | Hx] by lia; [by rewrite pretty_N_go_0|].
  rewrite pretty_N_go_step by done. apply IH; [by apply N.div_lt|].
  simpl. by rewrite pretty_N_char_digit.
Qed.

(** [%d] writes digits and the sign only. *)
Lemma fmt_d_digits (n : Z) : all_digit_like (fmt_d n) = true.
Proof.
  assert (HN : ∀ x : N, all_digit_like (pretty x) = true).
  { intros x. unfold pretty, pretty_N. case_decide; [done|].
    by apply pretty_N_go_digits. }
  unfold fmt_d. destruct n as [|p|p]; [done| |].
  - apply (HN (Npos p)).
  - change (pretty (Z.neg p)) with ("-" +:+ pretty (Npos p)).
    simpl. apply (HN (Npos p)).
Qed.

Lemma digits_outside needle d :
  chars_outside needle "0123456789-" = true →
  all_digit_like d = true → chars_outside needle d = true.
Proof.
  intros Hn. induction d as [|a d IH]; simpl; [done|].
  intros [Ha Hd]%andb_true_iff. rewrite (IH Hd), andb_true_r.
  apply negb_true_iff. unfold digit_like in Ha. simpl in Ha, Hn.
  rewrite !orb_true_iff, !bool_decide_eq_true in Ha.
  rewrite !andb_true_iff, !negb_true_iff in Hn.
  destruct Hn as (? & ? & ? & ? & ? & ? & ? & ? & ? & ? & ? & _).
  repeat (destruct Ha as [-> | Ha]; [done|]). done.
Qed.

(** A number between a text and a text that starts with a character
    outside "sys_exit". *)
Lemma quiet_number pre n post a post' :
  post = String a post' →
  char_in a "sys_exit" = false →
  occurs "sys_exit" pre = false →
  occurs "sys_exit" post' = false →
  occurs "sys_exit" (pre +:+ fmt_d n +:+ post) = false.
Proof.
  intros -> Ha Hpre Hpost.
  rewrite <- string_app_assoc, (occurs_sep _ _ _ _ Ha), Hpost, orb_false_r.
  rewrite occurs_outside_tail; [done|done|].
  apply digits_outside; [reflexivity|apply fmt_d_digits].
Qed.

Lemma quiet_number_end pre n :
  occurs "sys_exit" pre = false →
  occurs "sys_exit" (pre +:+ fmt_d n) = false.
Proof.
  intros Hpre. rewrite occurs_outside_tail; [done|done|].
  apply digits_outside; [reflexivity|apply fmt_d_digits].
Qed.

Lemma quiet_literal s t : s = t +:+ nl → occurs "sys_exit" t = false → quiet (Verbatim s).
Proof. intros -> Ht. by exists t. Qed.

Lemma quiet_run_op ch n : quiet (run_op ch n).
Proof.
  unfold run_op, folded_op, unit_op.
  case_bool_decide; repeat case_decide.
  - exists ("    addb $" +:+ fmt_d n +:+ ", (%r12)    # + x" +:+ fmt_d n).
    split; [by rewrite !string_app_assoc|].
    apply (quiet_number _ n _ ","%char (" (%r12)    # + x" +:+ fmt_d n) eq_refl);
      [done..|]. by apply quiet_number_end.
  - exists ("    subb $" +:+ fmt_d n +:+ ", (%r12)    # - x" +:+ fmt_d n).
    split; [by rewrite !string_app_assoc|].
    apply (quiet_number _ n _ ","%char (" (%r12)    # - x" +:+ fmt_d n) eq_refl);
      [done..|]. by apply quiet_number_end.
  - exists ("    addq $" +:+ fmt_d n +:+ ", %r12      # > x" +:+ fmt_d n).
    split; [by rewrite !string_app_assoc|].
    apply (quiet_number _ n _ ","%char (" %r12      # > x" +:+ fmt_d n) eq_refl);
      [done..|]. by apply quiet_number_end.
  - exists ("    subq $" +:+ fmt_d n +:+ ", %r12      # < x" +:+ fmt_d n).
    split; [by rewrite !string_app_assoc|].
    apply (quiet_number _ n _ ","%char (" %r12      # < x" +:+ fmt_d n) eq_refl);
      [done..|]. by apply quiet_number_end.
  - by exists "    incb (%r12)         # +".
  - by exists "    decb (%r12)         # -".
  - by exists "    incq %r12           # >".
  - by exists "    decq %r12           # <".
Qed.

Lemma quiet_loop_records k :
  Forall quiet (loop_open_records k) ∧ Forall quiet (loop_close_records k).
Proof.
  assert (Hcmp : quiet (Verbatim ("    cmpb $0, (%r12)" +:+ nl)))
    by (by exists "    cmpb $0, (%r12)").
  split; repeat constructor; try done.
  - exists ("loop_start_" +:+ fmt_d k +:+ ":           # [").
    split; [by rewrite !string_app_assoc|].
    by apply (quiet_number _ k _ ":"%char "           # [" eq_refl).
  - exists ("    je loop_end_" +:+ fmt_d k +:+ nl).
    split; [by rewrite !string_app_assoc|].
    by apply (quiet_number _ k _ "010"%char "" eq_refl).
  - exists ("    jne loop_start_" +:+ fmt_d k +:+ "    # ]").
    split; [by rewrite !string_app_assoc|].
    by apply (quiet_number _ k _ " "%char "   # ]" eq_refl).
  - exists ("loop_end_" +:+ fmt_d k +:+ ":" +:+ nl).
    split; [by rewrite !string_app_assoc|].
    by apply (quiet_number _ k _ ":"%char nl eq_refl).
Qed.

Lemma quiet_io : Forall quiet output_seq ∧ Forall quiet input_seq.
Proof.
  split; repeat constructor.
  - by exists "    # Output character (.)".
  - by exists "    movq $1, %rax       # sys_write".
  - by exists "    movq $1, %rdi       # stdout".
  - by exists "    movq %r12, %rsi    # buffer".
  - by exists "    movq $1, %rdx       # length".
  - by exists ("    syscall" +:+ nl).
  - by exists "    # Input character (,)".
  - by exists "    movq $0, %rax       # sys_read".
  - by exists "    movq $0, %rdi       # stdin".
  - by exists "    movq %r12, %rsi    # buffer".
  - by exists "    movq $1, %rdx       # length".
  - by exists ("    syscall" +:+ nl).
Qed.

Lemma quiet_header : Forall quiet header.
Proof.
  repeat constructor.
  - by exists "    .section .data".
  - by exists "memory:".
  - by exists ("    .zero 30000" +:+ nl).
  - by exists "    .section .text".
  - by exists ("    .globl _start" +:+ nl).
  - by exists "_start:".
  - by exists "    # Initialize data pointer in r12".
  - by exists ("    leaq memory(%rip), %r12" +:+ nl).
Qed.

Lemma emitted_quiet a : emitted a → quiet a.
Proof.
  destruct quiet_io as [Hout Hin].
  intros [(ch & n & ->)|[Ha|[Ha|(k & [Ha|Ha])]]].
  - apply quiet_run_op.
  - rewrite Forall_forall in Hout. by apply Hout.
  - rewrite Forall_forall in Hin. by apply Hin.
  - destruct (quiet_loop_records k) as [H _]. rewrite Forall_forall in H. by apply H.
  - destruct (quiet_loop_records k) as [_ H]. rewrite Forall_forall in H. by apply H.
Qed.

Lemma render_all_app l1 l2 :
  render_all (l1 ++ l2) = render_all l1 +:+ render_all l2.
Proof.
  induction l1 as [|a l1 IH]; [done|].
  change (render_all ((a :: l1) ++ l2)) with (render a +:+ render_all (l1 ++ l2)).
  change (render_all (a :: l1)) with (render a +:+ render_all l1).
  by rewrite IH, string_app_assoc.
Qed.

(** Records that are quiet one by one give a text without "sys_exit": the
    newline at the end of each record keeps the text from standing across
    two records. *)
Lemma quiet_text l : Forall quiet l → occurs "sys_exit" (render_all l) = false.
Proof.
  induction 1 as [|a l (t & Ht & Hq) _ IH]; [done|].
  change (render_all (a :: l)) with (render a +:+ render_all l).
  rewrite Ht, string_app_assoc.
  change (nl +:+ render_all l) with (String "010" (render_all l)).
  rewrite occurs_sep by done. by rewrite Hq, IH.
Qed.

(** What one iteration appends to the output. *)
Lemma loop_body_emitted c src ch c' src' :
  stack_ok c →
  code src !! position src = Some ch →
  loop_body c src ch = Ok (c', src') →
  ∃ l, output c' = output c ++ l ∧ Forall emitted l.
Proof.
  intros Hok Hch Hb.
  destruct (lookup_drop_head _ _ _ Hch) as [rest Hd].
  destruct (foldable ch) eqn:Hf.
  { rewrite (loop_body_foldable _ _ _ _ Hd Hf) in Hb. injection Hb as <- <-.
    eexists [_]. split; [reflexivity|].
    constructor; [|constructor]. left. by eexists _, _. }
  rewrite (loop_body_single _ _ _ Hf) in Hb.
  destruct (decide (ch = "["%char)) as [-> | Hno].
  { destruct (compile_instruction_open c Hok) as (c1 & Hci & Hout & _).
    rewrite Hci in Hb. injection Hb as <- <-. eexists. split; [exact Hout|].
    apply Forall_forall. intros a Ha. do 3 right. eexists. by left. }
  destruct (decide (ch = "]"%char)) as [-> | Hnc].
  { destruct (stack_view c) as [|k s] eqn:Hsv.
    - by rewrite (compile_instruction_close_empty c Hok Hsv) in Hb.
    - destruct (compile_instruction_close c k s Hok Hsv) as (c1 & Hci & Hout & _).
      rewrite Hci in Hb. injection Hb as <- <-. eexists. split; [exact Hout|].
      apply Forall_forall. intros a Ha. do 3 right. eexists. by right. }
  destruct (is_instruction ch) eqn:Hi.
  - assert (ch = "."%char ∨ ch = ","%char) as Hio.
    { unfold is_instruction, foldable in *.
      rewrite !orb_true_iff, !bool_decide_eq_true in Hi.
      rewrite !orb_false_iff, !bool_decide_eq_false in Hf. tauto. }
    rewrite (compile_instruction_io_records c ch Hio) in Hb.
    injection Hb as <- <-. exists (io_records ch).
    rewrite output_fprintfs. split; [done|].
    apply Forall_forall. intros a Ha. unfold io_records in Ha.
    destruct Hio as [-> | ->]; simpl in Ha; [right; by left|right; right; by left].
  - rewrite (compile_instruction_other _ _ Hi) in Hb. injection Hb as <- <-.
    exists []. by rewrite app_nil_r.
Qed.

Lemma scan_state_emitted bytes c src :
  scan_state bytes c src →
  ∃ body, output c = header ++ body ∧ Forall emitted body.
Proof.
  induction 1 as [|c src ch c' src' Hs (body & Ho & Hbody) Hch Hb].
  - exists []. split; [reflexivity|constructor].
  - destruct (loop_body_emitted _ _ _ _ _
                (inv_stack_ok _ _ _ (scan_state_inv _ _ _ Hs)) Hch Hb)
      as (l & Hl & Hem).
    exists (body ++ l). rewrite Hl, Ho, app_assoc. split; [done|].
    by apply Forall_app.
Qed.

(** The text written up to any state of the scan holds no "sys_exit". *)
Lemma scan_state_text bytes c src :
  scan_state bytes c src → occurs "sys_exit" (render_all (output c)) = false.
Proof.
  intros Hs. destruct (scan_state_emitted _ _ _ Hs) as (body & -> & Hbody).
  apply quiet_text, Forall_app. split; [apply quiet_header|].
  eapply Forall_impl; [exact Hbody|]. apply emitted_quiet.
Qed.

(** The output of a finished compilation: the header, a body and, on
    success, the footer; there is no "sys_exit" in the text before the
    footer. *)
Lemma compile_source_frame bytes :
  (∃ c body, compile_source bytes = Some (Ok c)
             ∧ output c = header ++ body ++ footer
             ∧ occurs "sys_exit" (render_all (header ++ body)) = false)
  ∨ (∃ msg c body, compile_source bytes = Some (Exit msg 0 c)
                   ∧ output c = header ++ body
                   ∧ occurs "sys_exit" (render_all (header ++ body)) = false).
Proof.
  destruct (compile_source_cases bytes)
    as [(c0 & src & Hs & _ & _ & Hc0)|[(c0 & src & Hs & _ & _ & Hc0)
       |(c0 & src & Hs & _ & _ & Hc0)]];
    pose proof (scan_state_text _ _ _ Hs) as Htext;
    destruct (out_frame _ (scan_state_output _ _ _ Hs)) as (body & Ho & _);
    rewrite Ho in Htext.
  - left. exists (emit_footer c0), body. split; [done|]. split; [|done].
    unfold emit_footer. by rewrite output_fprintfs, Ho, <- app_assoc.
  - right. by exists Unmatched_open, c0, body.
  - right. by exists Unmatched_close, c0, body.
Qed.

(** X4: the output is written front to back and framed.  Every iteration
    of the scan only appends to the output.  On success the output is the
    eight records of the header, a body, and the four records of the
    footer; on failure it is the header and a body, and the footer is
    missing.  The text of the header and the body holds no "sys_exit": the
    line of the exit system call stands once in the text of a successful
    output, in the footer, and nowhere in the text of a failed one. *)
Theorem output_is_framed bytes :
  (∀ c src ch c' src',
     scan_state bytes c src →
     code src !! position src = Some ch →
     loop_body c src ch = Ok (c', src') →
     ∃ l, output c' = output c ++ l)
  ∧ (∀ c, compile_source bytes = Some (Ok c) →
          ∃ body,
            output c
            = [ Verbatim ("    .section .data" +:+ nl);
                Verbatim ("memory:" +:+ nl);
                ZeroDirective 30000;
                Verbatim ("    .section .text" +:+ nl);
                Verbatim ("    .globl _start" +:+ nl +:+ nl);
                Verbatim ("_start:" +:+ nl);
                Verbatim ("    # Initialize data pointer in r12" +:+ nl);
                Verbatim ("    leaq memory(%rip), %r12" +:+ nl +:+ nl) ]
              ++ body
              ++ [ Verbatim (nl +:+ "    # Exit program" +:+ nl);
                   Verbatim ("    movq $60, %rax      # sys_exit" +:+ nl);
                   Verbatim ("    xorq %rdi, %rdi    # exit code 0" +:+ nl);
                   Verbatim ("    syscall" +:+ nl) ]
            ∧ occurs "sys_exit" (render_all ([ Verbatim ("    .section .data" +:+ nl);
                Verbatim ("memory:" +:+ nl);
                ZeroDirective 30000;
                Verbatim ("    .section .text" +:+ nl);
                Verbatim ("    .globl _start" +:+ nl +:+ nl);
                Verbatim ("_start:" +:+ nl);
                Verbatim ("    # Initialize data pointer in r12" +:+ nl);
                Verbatim ("    leaq memory(%rip), %r12" +:+ nl +:+ nl) ] ++ body)) = false)
  ∧ (∀ msg pos c, compile_source bytes = Some (Exit msg pos c) →
          ∃ body,
            output c
            = [ Verbatim ("    .section .data" +:+ nl);
                Verbatim ("memory:" +:+ nl);
                ZeroDirective 30000;
                Verbatim ("    .section .text" +:+ nl);
                Verbatim ("    .globl _start" +:+ nl +:+ nl);
                Verbatim ("_start:" +:+ nl);
                Verbatim ("    # Initialize data pointer in r12" +:+ nl);
                Verbatim ("    leaq memory(%rip), %r12" +:+ nl +:+ nl) ]
              ++ body
            ∧ occurs "sys_exit" (render_all (output c)) = false).
Proof.
  split; [|split].
  - intros c src ch c' src' Hs Hch Hb.
    destruct (loop_body_shape _ _ _ _ _
                (inv_stack_ok _ _ _ (scan_state_inv _ _ _ Hs)) Hch Hb)
      as [(l & Ho & _)|[[Ho _]|(k & _ & Ho)]]; by eexists.
  - intros c Hc.
    destruct (compile_source_frame bytes)
      as [(c0 & body & Hc0 & Ho & Ht)|(msg & c0 & body & Hc0 & _)];
      rewrite Hc0 in Hc; [|done]. injection Hc as <-.
    exists body. split; [exact Ho|exact Ht].
  - intros msg pos c Hc.
    destruct (compile_source_frame bytes)
      as [(c0 & body & Hc0 & _)|(msg0 & c0 & body & Hc0 & Ho & Ht)];
      rewrite Hc0 in Hc; [done|]. injection Hc as _ _ <-.
    exists body. split; [exact Ho|]. by rewrite Ho.
Qed.

Lemma output_is_framed_witness :
  ∃ c body, compile_source (bf "+.[") = Some (Exit Unmatched_open 0 c)
            ∧ output c = header ++ body
            ∧ occurs "sys_exit" (render_all (output c)) = false.
Proof.
  destruct (compile_source (bf "+.[")) as [[c|msg pos c]|] eqn:Hc;
    [discriminate Hc| |discriminate Hc].
  destruct (proj2 (proj2 (output_is_framed (bf "+.["))) _ _ _ Hc)
    as (body & Ho & Ht).
  vm_compute in Hc. injection Hc as <- <- <-.
  eexists _, body. split; [reflexivity|]. split; [exact Ho|exact Ht].
Defined.

(** X5: the loops of a successful output are whole and nested.  Every
    loop is the three records of its [[] (start label, test, jump to the
    end label of the same number), a part that is itself made of whole
    loops and of records that are no labels and no jumps, and the three
    records of its []] (test, jump to the start label of the same number,
    end label of the same number). *)
Theorem output_loops_are_nested bytes c :
  compile_source bytes = Some (Ok c) → structured (output c).
Proof.
  intros Hc.
  destruct (compile_source_cases bytes)
    as [(c0 & src & Hs & _ & Hsv & Hc0)|[(c0 & src & Hs & _ & _ & Hc0)
       |(c0 & src & Hs & _ & _ & Hc0)]];
    rewrite Hc0 in Hc; [|done..]. injection Hc as <-.
  pose proof (out_structured _ (scan_state_output _ _ _ Hs)) as Hst.
  rewrite Hsv in Hst. inversion Hst as [l Hl|]; subst.
  unfold emit_footer. rewrite output_fprintfs.
  apply structured_app; [done|]. apply structured_plain_list, plain_frame.
Qed.

Lemma output_loops_are_nested_witness :
  ∃ c, compile_source (bf "[[-]>[.]]") = Some (Ok c) ∧ structured (output c).
Proof.
  destruct (compile_source (bf "[[-]>[.]]")) as [[c|msg pos c]|] eqn:Hc;
    [|discriminate Hc..].
  exists c. split; [reflexivity|].
  exact (output_loops_are_nested _ _ Hc).
Defined.

(** ** An excess close ends everything *)

Lemma no_join_close w rest : no_join w ("]"%char :: rest) = true.
Proof.
  unfold no_join. destruct (last w) as [a|]; [|done]. simpl.
  destruct (foldable a) eqn:Hf; [|done]. simpl.
  rewrite negb_true_iff, bool_decide_eq_false. by intros ->.
Qed.

Lemma run_loop_balanced w :
  balanced w →
  ∃ c, run_loop (emit_header create_compiler) w = Some (Ok c)
       ∧ stack_ok c ∧ stack_view c = [].
Proof.
  intros Hbal. unfold run_loop.
  pose proof (compile_loop_states w (List.length w) _ _ (scan_start w)) as Hstates.
  destruct (compile_loop_enough (List.length w) (emit_header create_compiler)
              (mkSource w 0)) as [r Hr].
  { unfold Source_length; simpl; lia. }
  rewrite Hr in *. destruct r as [[c src]|msg pos c].
  - destruct Hstates as [Hs Hp]. exists c. split; [done|].
    pose proof (scan_state_inv _ _ _ Hs) as Hinv.
    split; [apply Hinv|].
    pose proof (inv_open _ _ _ Hinv) as Hopen. rewrite Hp, firstn_all in Hopen.
    pose proof (open_loops_depth _ _ Hopen) as Hd.
    rewrite (balanced_depth _ Hbal) in Hd.
    destruct (stack_view c); [done|simpl in Hd; lia].
  - exfalso. destruct Hstates as (c0 & src0 & ch & Hs & Hch & Hb).
    destruct (scan_state_code _ _ _ Hs) as [Hcode _].
    pose proof (scan_state_inv _ _ _ Hs) as Hinv.
    pose proof (scan_inv_step w c0 src0 ch Hcode Hinv Hch) as Hstep.
    rewrite Hb in Hstep. destruct Hstep as (_ & _ & _ & -> & Hsv).
    rewrite Hcode in Hch.
    apply (balanced_no_excess_close w (position src0) Hbal Hch).
    rewrite (open_loops_depth _ _ (inv_open _ _ _ Hinv)), Hsv. done.
Qed.

(** X6: what follows the first excess []] has no effect.  After a
    balanced text [w], a []] ends [compile_source] with "Unmatched ']'"
    and with the compiler the loop reaches on [w] alone, whatever bytes
    come after that []], as long as the whole input is within
    [input_bound]. *)
Theorem excess_close_hides_rest w :
  balanced w →
  Z.of_nat (List.length w) ≤ input_bound →
  ∃ c, run_loop (emit_header create_compiler) w = Some (Ok c)
       ∧ ∀ rest,
           Z.of_nat (List.length (w ++ "]"%char :: rest)) ≤ input_bound →
           compile_source (w ++ "]"%char :: rest)
           = Some (Exit Unmatched_close 0 c).
Proof.
  intros Hbal _. destruct (run_loop_balanced w Hbal) as (c & Hc & Hok & Hsv).
  exists c. split; [done|]. intros rest _.
  rewrite compile_source_scan_all.
  rewrite (scan_all_app_gen (List.length w) w _ _ (le_n _) (no_join_close w rest)).
  rewrite <- run_loop_scan_all, Hc.
  rewrite scan_all_single by done.
  by rewrite (compile_instruction_close_empty c Hok Hsv).
Qed.

Lemma excess_close_hides_rest_witness :
  ∃ c, compile_source (bf "+[-]" ++ "]"%char :: bf "[[[") = Some (Exit Unmatched_close 0 c)
       ∧ compile_source (bf "+[-]" ++ "]"%char :: bf ">>>.") = Some (Exit Unmatched_close 0 c).
Proof.
  assert (Hbal : balanced (bf "+[-]")) by (apply balanced_iff; split; reflexivity).
  assert (Hlen : Z.of_nat (List.length (bf "+[-]")) ≤ input_bound) by (by vm_compute).
  destruct (excess_close_hides_rest _ Hbal Hlen) as (c & _ & Hrest).
  exists c. split; apply Hrest; by vm_compute.
Defined.

(** ** Input and output instructions *)

Lemma fprintfs_app c l1 l2 : fprintfs (fprintfs c l1) l2 = fprintfs c (l1 ++ l2).
Proof. unfold fprintfs. by rewrite foldl_app. Qed.

Lemma scan_all_io bytes :
  ∀ c, Forall (λ ch, ch = "."%char ∨ ch = ","%char) bytes →
       scan_all c bytes = Some (Ok (fprintfs c (flat_map io_records bytes))).
Proof.
  induction bytes as [|ch bytes IH]; intros c Hio; [done|].
  apply Forall_cons in Hio as [Hch Hio].
  assert (Hf : foldable ch = false) by (by destruct Hch as [-> | ->]).
  rewrite (scan_all_single _ _ _ Hf), (compile_instruction_io_records c ch Hch).
  rewrite (IH _ Hio), fprintfs_app. done.
Qed.

(** X7: [.] and [,] are never folded.  In a text of [.] and [,] only
    (within [input_bound]), every byte gets its own system call sequence of
    six records, also inside a run of equal bytes: between the header and
    the footer the output is the sequences of the bytes, one after the
    other, the [write] sequence for each [.] and the [read] sequence for
    each [,]. *)
Theorem io_is_never_folded bytes :
  Forall (λ ch, ch = "."%char ∨ ch = ","%char) bytes →
  Z.of_nat (List.length bytes) ≤ input_bound →
  ∃ c, compile_source bytes = Some (Ok c)
       ∧ output c
         = header
           ++ flat_map
                (λ ch,
                   if decide (ch = "."%char)
                   then [ Verbatim ("    # Output character (.)" +:+ nl);
                          Verbatim ("    movq $1, %rax       # sys_write" +:+ nl);
                          Verbatim ("    movq $1, %rdi       # stdout" +:+ nl);
                          Verbatim ("    movq %r12, %rsi    # buffer" +:+ nl);
                          Verbatim ("    movq $1, %rdx       # length" +:+ nl);
                          Verbatim ("    syscall" +:+ nl +:+ nl) ]
                   else [ Verbatim ("    # Input character (,)" +:+ nl);
                          Verbatim ("    movq $0, %rax       # sys_read" +:+ nl);
                          Verbatim ("    movq $0, %rdi       # stdin" +:+ nl);
                          Verbatim ("    movq %r12, %rsi    # buffer" +:+ nl);
                          Verbatim ("    movq $1, %rdx       # length" +:+ nl);
                          Verbatim ("    syscall" +:+ nl +:+ nl) ])
                bytes
           ++ footer
       ∧ List.length (output c) = (8 + 6 * List.length bytes + 4)%nat.
Proof.
  intros Hio _.
  assert (Hflat :
    flat_map io_records bytes
    = flat_map
        (λ ch, if decide (ch = "."%char) then output_seq else input_seq) bytes).
  { clear -Hio. induction Hio as [|ch l Hch _ IH]; [done|]. simpl. rewrite IH.
    f_equal. unfold io_records. by destruct Hch as [-> | ->]. }
  assert (Hlen : List.length (flat_map io_records bytes) = (6 * List.length bytes)%nat).
  { clear -Hio. induction Hio as [|ch l Hch _ IH]; [done|]. simpl.
    rewrite length_app, IH. unfold io_records.
    destruct Hch as [-> | ->]; simpl; lia. }
  rewrite compile_source_scan_all, (scan_all_io bytes _ Hio).
  simpl. unfold compile_end.
  destruct (fprintfs_fields (header ++ flat_map io_records bytes) create_compiler)
    as (_ & _ & Htop & _).
  unfold emit_header. rewrite fprintfs_app, Htop. simpl.
  eexists. split; [reflexivity|].
  unfold emit_footer. rewrite fprintfs_app, output_fprintfs.
  split.
  - etrans; [|exact (f_equal (λ l, header ++ l ++ footer) Hflat)]. reflexivity.
  - rewrite !length_app, Hlen. simpl. lia.
Qed.

Lemma io_is_never_folded_witness :
  ∃ c, compile_source (bf "...,,") = Some (Ok c)
       ∧ output c = header ++ (output_seq ++ output_seq ++ output_seq
                                ++ input_seq ++ input_seq) ++ footer.
Proof.
  destruct (io_is_never_folded (bf "...,,")) as (c & Hc & Ho & _).
  { repeat constructor; by (left + right). }
  { by vm_compute. }
  exists c. split; [exact Hc|]. rewrite Ho. reflexivity.
Defined.

(** ** The loop stack array *)

(** X8: a push followed by a pop gives the label back.  On a well-formed
    stack whose doubled size is still an [int], [pop_loop] after
    [push_loop] returns the pushed label and leaves the stack contents,
    the top index, the counter and the output as they were before the
    push; the array is not shrunk again. *)
Theorem push_then_pop c label :
  stack_ok c →
  loop_stack_size c * 2 ≤ INT_MAX →
  ∃ c', pop_loop (push_loop c label) = Ok (label, c')
        ∧ stack_view c' = stack_view c
        ∧ loop_stack_top c' = loop_stack_top c
        ∧ loop_stack_size c ≤ loop_stack_size c'
        ∧ label_counter c' = label_counter c
        ∧ output c' = output c
        ∧ stack_ok c'.
Proof.
  intros Hok _.
  destruct (pop_loop_cons (push_loop c label) label (stack_view c)
              (push_loop_ok c label Hok) (stack_view_push c label Hok))
    as (c' & Hpop & Hv & Hok' & Ho & Hl).
  exists c'. split; [done|]. split; [done|].
  pose proof (stack_view_length c Hok) as H1.
  pose proof (stack_view_length c' Hok') as H2. rewrite Hv in H2.
  split; [lia|].
  assert (Hsize : loop_stack_size c' = loop_stack_size (push_loop c label)).
  { unfold pop_loop in Hpop. case_bool_decide; [done|]. by injection Hpop as _ <-. }
  split; [|done].
  rewrite Hsize. unfold push_loop; simpl. destruct Hok. case_bool_decide; lia.
Qed.

Lemma push_then_pop_witness :
  ∃ c', pop_loop (push_loop create_compiler 5) = Ok (5, c')
        ∧ stack_view c' = [] ∧ loop_stack_top c' = -1.
Proof.
  assert (Hmax : loop_stack_size create_compiler * 2 ≤ INT_MAX) by (by vm_compute).
  destruct (push_then_pop create_compiler 5 stack_ok_create Hmax)
    as (c' & Hpop & Hv & Ht & _).
  exists c'. split; [exact Hpop|]. split; [exact Hv|exact Ht].
Defined.

(** X9: [push_loop] grows the array exactly when it is full, and only
    then, on a well-formed stack whose doubled size is still an [int].
    With free slots the size stays; with the top at the last slot the size
    doubles.  Either way the new size and the new top index are [int]s,
    the slot written is inside the array, it holds the label, and the
    slots in use before keep their values. *)
Theorem push_loop_grows_when_full c label :
  stack_ok c →
  loop_stack_size c * 2 ≤ INT_MAX →
  (loop_stack_size (push_loop c label) ≤ INT_MAX
   ∧ loop_stack_top (push_loop c label) ≤ INT_MAX)
  ∧ (loop_stack_top c < loop_stack_size c - 1 →
   loop_stack_size (push_loop c label) = loop_stack_size c)
  ∧ (loop_stack_top c = loop_stack_size c - 1 →
     loop_stack_size (push_loop c label) = 2 * loop_stack_size c)
  ∧ Z.of_nat (List.length (loop_stack (push_loop c label)))
    = loop_stack_size (push_loop c label)
  ∧ loop_stack_top (push_loop c label) = loop_stack_top c + 1
  ∧ loop_stack_top (push_loop c label) < loop_stack_size (push_loop c label)
  ∧ loop_stack (push_loop c label) !! Z.to_nat (loop_stack_top c + 1) = Some label
  ∧ (∀ i, Z.of_nat i ≤ loop_stack_top c →
          loop_stack (push_loop c label) !! i = loop_stack c !! i).
Proof.
  intros Hok Hmax. pose proof (push_loop_ok c label Hok) as [H1 H2 H3 H4].
  pose proof (push_loop_in_bounds c label Hok) as Hin.
  destruct Hok as [Ha Hb Hc Hd].
  split.
  { assert (loop_stack_size (push_loop c label) ≤ INT_MAX); [|lia].
    unfold push_loop; simpl. case_bool_decide; lia. }
  split; [|split; [|split; [done|split; [done|split; [done|split]]]]].
  - intros Hfree. unfold push_loop; simpl. by rewrite bool_decide_eq_false_2 by lia.
  - intros Hfull. unfold push_loop; simpl. rewrite bool_decide_eq_true_2 by lia. lia.
  - unfold push_loop in *; simpl in *. apply list_lookup_insert_eq.
    by rewrite length_insert in Hin.
  - intros i Hi. unfold push_loop; simpl.
    rewrite list_lookup_insert_ne by lia.
    case_bool_decide; [|done].
    unfold realloc. rewrite resize_spec, lookup_app_l.
    + apply lookup_take_lt. lia.
    + rewrite length_take. lia.
Qed.

Lemma push_loop_grows_when_full_witness :
  let full := Nat.iter 100 (λ c, push_loop c 7) create_compiler in
  loop_stack_top full = 99
  ∧ loop_stack_size full = 100
  ∧ loop_stack_size (push_loop full 8) = 200
  ∧ stack_view (push_loop full 8) = 8 :: replicate 100 7.
Proof.
  intros full.
  assert (Hok : stack_ok full).
  { subst full. generalize 100%nat. intros n.
    induction n as [|n IH]; [apply stack_ok_create|].
    simpl. by apply push_loop_ok. }
  assert (Hmax : loop_stack_size full * 2 ≤ INT_MAX) by (by vm_compute).
  destruct (push_loop_grows_when_full full 8 Hok Hmax) as (_ & _ & Hgrow & _).
  split; [reflexivity|]. split; [reflexivity|].
  split; [|by vm_compute].
  rewrite Hgrow; reflexivity.
Defined.

Lemma compile_instruction_capacity c ch c' :
  compile_instruction c ch = Ok c' →
  (loop_stack_size c' = loop_stack_size c ∧ label_counter c' = label_counter c)
  ∨ (label_counter c' = label_counter c + 1
     ∧ loop_stack_size c'
       = if bool_decide (loop_stack_top c >= loop_stack_size c - 1)
         then loop_stack_size c * 2 else loop_stack_size c).
Proof.
  intros Hci.
  destruct (foldable ch) eqn:Hf.
  { rewrite (compile_instruction_foldable _ _ Hf) in Hci.
    injection Hci as <-. by left. }
  destruct (decide (ch = "["%char)) as [-> | Hno].
  { change (compile_instruction c "[")
      with (@Ok Compiler
              (fprintfs (push_loop (snd (next_label c)) (label_counter c))
                 (loop_open_records (label_counter c)))) in Hci.
    destruct (fprintfs_fields (loop_open_records (label_counter c))
                (push_loop (snd (next_label c)) (label_counter c)))
      as (Hl & _ & _ & Hs).
    injection Hci as <-. right. split.
    - etrans; [exact Hl|reflexivity].
    - etrans; [exact Hs|reflexivity]. }
  destruct (decide (ch = "]"%char)) as [-> | Hnc].
  { rewrite compile_instruction_close_unfold in Hci. unfold pop_loop in Hci.
    case_bool_decide; [done|]. simpl in Hci.
    destruct (fprintfs_fields
                (loop_close_records
                   (loop_stack c !!! Z.to_nat (loop_stack_top c)))
                {| output := output c; label_counter := label_counter c;
                   loop_stack := loop_stack c;
                   loop_stack_top := loop_stack_top c - 1;
                   loop_stack_size := loop_stack_size c |})
      as (Hl & _ & _ & Hs).
    injection Hci as <-. left. split.
    - etrans; [exact Hs|reflexivity].
    - etrans; [exact Hl|reflexivity]. }
  left. destruct (is_instruction ch) eqn:Hi.
  - assert (ch = "."%char ∨ ch = ","%char) as Hio.
    { unfold is_instruction, foldable in *.
      rewrite !orb_true_iff, !bool_decide_eq_true in Hi.
      rewrite !orb_false_iff, !bool_decide_eq_false in Hf. tauto. }
    rewrite (compile_instruction_io_records c ch Hio) in Hci.
    destruct (fprintfs_fields (io_records ch) c) as (Hl & _ & _ & Hs).
    injection Hci as <-. by split.
  - rewrite (compile_instruction_other _ _ Hi) in Hci. by injection Hci as <-.
Qed.

Lemma loop_body_sizes c src ch c' src' :
  code src !! position src = Some ch →
  loop_body c src ch = Ok (c', src') →
  (loop_stack_size c' = loop_stack_size c ∧ label_counter c' = label_counter c)
  ∨ (label_counter c' = label_counter c + 1
     ∧ loop_stack_size c'
       = if bool_decide (loop_stack_top c >= loop_stack_size c - 1)
         then loop_stack_size c * 2 else loop_stack_size c).
Proof.
  intros Hch Hb. destruct (lookup_drop_head _ _ _ Hch) as [rest Hd].
  destruct (foldable ch) eqn:Hf.
  - rewrite (loop_body_foldable _ _ _ _ Hd Hf) in Hb. injection Hb as <- <-.
    by left.
  - rewrite (loop_body_single _ _ _ Hf) in Hb.
    destruct (compile_instruction c ch) as [c1|] eqn:Hci; [|done].
    injection Hb as <- <-. by apply (compile_instruction_capacity c ch).
Qed.

Lemma loop_body_capacity c src ch c' src' :
  code src !! position src = Some ch →
  loop_body c src ch = Ok (c', src') →
  -1 ≤ loop_stack_top c < label_counter c →
  loop_stack_top c < loop_stack_size c →
  capacity_ok c → capacity_ok c'.
Proof.
  intros Hch Hb Htop Hlt [[k Hk] Hbound].
  unfold capacity_ok.
  destruct (loop_body_sizes _ _ _ _ _ Hch Hb) as [[Hs Hl]|[Hl Hs]].
  - rewrite Hs, Hl. split; [by exists k|done].
  - rewrite Hs, Hl. case_bool_decide.
    + split.
      * exists (S k). rewrite Hk, Nat2Z.inj_succ, Z.pow_succ_r by lia. lia.
      * right. lia.
    + split; [by exists k|]. destruct Hbound; [by left|right; lia].
Qed.

Lemma scan_state_capacity bytes c src : scan_state bytes c src → capacity_ok c.
Proof.
  induction 1 as [|c src ch c' src' Hs IH Hch Hb].
  - split; [by exists 0%nat|by left].
  - destruct (int_variables_bounded bytes c src ch Hs) as (_ & Htop & _).
    eapply loop_body_capacity; [done..| |done].
    apply (scan_state_inv _ _ _ Hs).
Qed.

(** A size [100 * 2^k] below [100 * 2^m] can be doubled without passing
    [100 * 2^m]. *)
Lemma double_below (k m : nat) :
  100 * 2 ^ Z.of_nat k < 100 * 2 ^ Z.of_nat m →
  2 * (100 * 2 ^ Z.of_nat k) ≤ 100 * 2 ^ Z.of_nat m.
Proof.
  intros H. assert (Hlt : 2 ^ Z.of_nat k < 2 ^ Z.of_nat m) by lia.
  apply Z.pow_lt_mono_r_iff in Hlt; [|lia..].
  assert (Hle : 2 ^ (Z.succ (Z.of_nat k)) ≤ 2 ^ Z.of_nat m)
    by (apply Z.pow_le_mono_r; lia).
  rewrite Z.pow_succ_r in Hle by lia. lia.
Qed.

(** On an input within [input_bound] every [int] of the scan stays in the
    range of [int], also through the operations of the next iteration:
    [count++] in [count_repeats], [label_counter++], [++loop_stack_top]
    and [loop_stack_size *= 2].  So on these inputs the integers of this
    development are the [int]s of the C program. *)
Lemma int_arithmetic_in_range bytes c src :
  Z.of_nat (List.length bytes) ≤ input_bound →
  scan_state bytes c src →
  0 ≤ label_counter c ≤ Z.of_nat (position src)
  ∧ -1 ≤ loop_stack_top c < label_counter c
  ∧ loop_stack_top c < loop_stack_size c
  ∧ 100 ≤ loop_stack_size c ≤ input_bound
  ∧ (∀ ch, 0 ≤ count_repeats src ch ≤ Z.of_nat (List.length bytes))
  ∧ (∀ ch, code src !! position src = Some ch →
       label_counter c + 1 ≤ INT_MAX
       ∧ loop_stack_top c + 1 ≤ INT_MAX
       ∧ (loop_stack_top c >= loop_stack_size c - 1 →
          loop_stack_size c * 2 ≤ input_bound)).
Proof.
  intros Hlen Hs.
  destruct (scan_state_code _ _ _ Hs) as [Hcode Hpos].
  pose proof (scan_state_inv _ _ _ Hs) as Hinv.
  destruct (inv_stack_ok _ _ _ Hinv) as [H1 H2 H3 H4].
  destruct (scan_state_capacity _ _ _ Hs) as [[k Hk] Hcap].
  destruct (int_variables_bounded bytes c src "+"%char Hs) as (Hcnt & Htop & _).
  assert (Hlc : label_counter c ≤ Z.of_nat (position src)).
  { rewrite (inv_counter _ _ _ Hinv). unfold count_open.
    pose proof (length_filter (λ ch, ch = "["%char) (take (position src) bytes)) as Hf.
    rewrite length_take in Hf. lia. }
  assert (Hb24 : input_bound = 100 * 2 ^ Z.of_nat 24) by reflexivity.
  assert (H25 : 2 * input_bound = 100 * 2 ^ Z.of_nat 25) by reflexivity.
  assert (Hpow : 0 < 2 ^ Z.of_nat k) by (apply Z.pow_pos_nonneg; lia).
  assert (Hsize : loop_stack_size c ≤ input_bound).
  { destruct Hcap as [-> | Hcap]; [by vm_compute|].
    assert (Hlt : 100 * 2 ^ Z.of_nat k < 100 * 2 ^ Z.of_nat 25) by lia.
    apply double_below in Hlt.
    change (Z.of_nat 25) with (Z.succ (Z.of_nat 24)) in Hlt.
    rewrite Z.pow_succ_r in Hlt by lia. lia. }
  split; [lia|]. split; [done|]. split; [done|]. split; [lia|]. split.
  { intros ch. by destruct (int_variables_bounded bytes c src ch Hs) as (_ & _ & ?). }
  intros ch Hch. apply lookup_lt_Some in Hch. rewrite Hcode in Hch.
  unfold INT_MAX. unfold input_bound in Hlen.
  split; [lia|]. split; [lia|]. intros Hfull.
  assert (Hlt : 100 * 2 ^ Z.of_nat k < 100 * 2 ^ Z.of_nat 24) by lia.
  apply double_below in Hlt. lia.
Qed.

(** X10: the loop stack array stays small and is never overrun, on an
    input within [input_bound].  In every state of the scan its recorded
    size is its length and is 100 doubled some number of times, it is at
    most the larger of 100 and twice the length of the input and an [int],
    and the top index is inside it.  An iteration leaves the size as it
    is or doubles it, and it doubles it only when the array is full and a
    label is handed out; the doubled size is an [int] again. *)
Theorem loop_stack_capacity bytes c src :
  Z.of_nat (List.length bytes) ≤ input_bound →
  scan_state bytes c src →
  Z.of_nat (List.length (loop_stack c)) = loop_stack_size c
  ∧ (∃ k : nat, loop_stack_size c = 100 * 2 ^ Z.of_nat k)
  ∧ loop_stack_size c ≤ Z.max 100 (2 * Z.of_nat (List.length bytes))
  ∧ loop_stack_size c ≤ INT_MAX
  ∧ -1 ≤ loop_stack_top c < loop_stack_size c
  ∧ (∀ ch c' src',
       code src !! position src = Some ch →
       loop_body c src ch = Ok (c', src') →
       loop_stack_size c' = loop_stack_size c
       ∨ (loop_stack_top c = loop_stack_size c - 1
          ∧ label_counter c' = label_counter c + 1
          ∧ loop_stack_size c' = loop_stack_size c * 2
          ∧ loop_stack_size c * 2 ≤ INT_MAX)).
Proof.
  intros Hlen Hs. destruct (scan_state_capacity _ _ _ Hs) as [Hk Hbound].
  destruct (inv_stack_ok _ _ _ (scan_state_inv _ _ _ Hs)) as [H1 H2 H3 H4].
  destruct (int_variables_bounded bytes c src "+"%char Hs) as (Hcnt & _ & _).
  destruct (int_arithmetic_in_range _ _ _ Hlen Hs)
    as (_ & _ & _ & Hsize & _ & Hnext).
  split; [done|]. split; [done|].
  split; [destruct Hbound; lia|].
  split; [unfold INT_MAX, input_bound in *; lia|]. split; [lia|].
  intros ch c' src' Hch Hb.
  destruct (Hnext ch Hch) as (_ & _ & Hdouble).
  destruct (loop_body_sizes _ _ _ _ _ Hch Hb) as [[Hsz _]|[Hl Hsz]]; [by left|].
  rewrite Hsz. case_bool_decide as Hfull; [|by left]. right.
  specialize (Hdouble Hfull). unfold INT_MAX, input_bound in *.
  repeat split; [lia|done|lia].
Qed.

Lemma loop_stack_capacity_witness :
  ∃ c src,
    iterate 150 (emit_header create_compiler) (mkSource (replicate 150 "["%char) 0)
    = Some (c, src)
    ∧ loop_stack_top c = 149
    ∧ loop_stack_size c = 200
    ∧ loop_stack_size c ≤ Z.max 100 (2 * 150).
Proof.
  destruct (iterate 150 (emit_header create_compiler)
              (mkSource (replicate 150 "["%char) 0)) as [[c src]|] eqn:Hit;
    [|by vm_compute in Hit].
  pose proof (iterate_state _ _ _ _ _ _ (scan_start _) Hit) as Hs.
  assert (Hlen : Z.of_nat (List.length (replicate 150 "["%char)) ≤ input_bound)
    by (by vm_compute).
  destruct (loop_stack_capacity _ _ _ Hlen Hs) as (_ & _ & Hmax & _).
  rewrite length_replicate in Hmax.
  vm_compute in Hit. injection Hit as <- <-.
  eexists _, _. split; [reflexivity|]. split; [reflexivity|].
  split; [reflexivity|exact Hmax].
Defined.

(** ** Counting a run *)

(** X11: [count_repeats] at any cursor and for any byte, on a buffer of
    at most [INT_MAX] bytes.  The count is the number of bytes equal to
    the given one from the cursor on, up to the first other byte or the
    end of the buffer, and it is an [int]; it is 0 when the byte under the
    cursor is another one and when the cursor is at or past the end, and
    it never reaches past the end. *)
Theorem count_repeats_counts src ch :
  Z.of_nat (Source_length src) ≤ INT_MAX →
  0 ≤ count_repeats src ch ≤ INT_MAX
  ∧ (position src + Z.to_nat (count_repeats src ch)
     ≤ Nat.max (position src) (Source_length src))%nat
  ∧ (∀ i, (i < Z.to_nat (count_repeats src ch))%nat →
          code src !! (position src + i)%nat = Some ch)
  ∧ code src !! (position src + Z.to_nat (count_repeats src ch))%nat ≠ Some ch
  ∧ (code src !! position src ≠ Some ch → count_repeats src ch = 0).
Proof.
  intros Hmax. pose proof (count_repeats_le src ch) as Hcnt.
  split; [lia|]. clear Hcnt.
  rewrite count_repeats_run, Nat2Z.id.
  pose proof (run_le ch (drop (position src) (code src))) as Hle.
  rewrite length_drop in Hle. unfold Source_length.
  split; [lia|]. split; [|split].
  - intros i Hi. rewrite <- lookup_drop. by apply run_lookup.
  - rewrite <- lookup_drop. apply run_stop.
  - intros Hne. rewrite run_head_other; [done|].
    rewrite <- (Nat.add_0_r (position src)) in Hne.
    rewrite <- lookup_drop in Hne. by destruct (drop (position src) (code src)).
Qed.

Lemma count_repeats_counts_witness :
  count_repeats (mkSource (bf "..[[[+") 2) "[" = 3
  ∧ count_repeats (mkSource (bf "..[[[+") 2) "." = 0
  ∧ count_repeats (mkSource (bf "..[[[+") 9) "+" = 0
  ∧ 0 ≤ count_repeats (mkSource (bf "..[[[+") 2) "[" ≤ INT_MAX.
Proof.
  split; [reflexivity|]. split; [reflexivity|]. split; [reflexivity|].
  apply (count_repeats_counts (mkSource (bf "..[[[+") 2) "["%char). by vm_compute.
Defined.

(** ** The whole program *)

(** X12: the exit status of the program.  When the argument vector is not
    empty and the input file, if it opens, is one whose size [ftell]
    reports within its bytes and within [input_bound] (a regular file of
    that size is one), [main] ends with status 0 or 1.  The status is 0
    exactly when there is an input argument, the input file opens, the
    output file (the second argument, or "output.s") opens, and the
    brackets of the bytes read are balanced; then nothing is written to
    stderr.  With status 1 stderr holds the usage text, or the line of
    the file that did not open, or one of the two lines of [error]. *)
Theorem main_exit_status w argv :
  argv ≠ [] →
  (∀ prog input_file more f,
     argv = prog :: input_file :: more →
     files w !! input_file = Some f →
     0 ≤ told f ≤ Z.of_nat (List.length (contents f)) ∧ told f ≤ input_bound) →
  ∃ run,
    main w argv = Some run
    ∧ (status run = 0 ∨ status run = 1)
    ∧ (status run = 0 ↔
       ∃ prog input_file more f,
         argv = prog :: input_file :: more
         ∧ files w !! input_file = Some f
         ∧ writable w (output_name more) = true
         ∧ balanced (take (Z.to_nat (told f)) (contents f)))
    ∧ (status run = 0 → stderr run = "")
    ∧ (status run = 1 →
       (∃ prog, stderr run
                = "Usage: " +:+ prog +:+ " <input.bf> [output.s]" +:+ nl
                  +:+ "Compiles Brainfuck code to x86-64 assembly" +:+ nl)
       ∨ (∃ name, stderr run = "Could not open file: " +:+ name +:+ nl)
       ∨ (∃ name, stderr run = "Could not open output file: " +:+ name +:+ nl)
       ∨ stderr run = "Error at position 0: Unmatched ']'" +:+ nl
       ∨ stderr run = "Error at position 0: Unmatched '['" +:+ nl).
Proof.
  intros Hargv Hfiles.
  destruct argv as [|prog [|input_file more]]; [done| |].
  { eexists. split; [reflexivity|]. split; [by right|].
    split; [|split; [done|]].
    - split; [done|]. by intros (? & ? & ? & ? & [=] & _).
    - intros _. left. by exists prog. }
  unfold main, read_source.
  destruct (files w !! input_file) as [f|] eqn:Hfile.
  2: { eexists. split; [reflexivity|]. split; [by right|].
       split; [|split; [done|]].
       - split; [done|]. intros (? & ? & ? & ? & [= <- <- <-] & Hf & _). congruence.
       - intros _. right; left. by exists input_file. }
  destruct (Hfiles _ _ _ _ eq_refl Hfile) as [Htold _].
  rewrite bool_decide_eq_true_2 by done.
  destruct (writable w (output_name more)) eqn:Hw.
  2: { eexists. split; [reflexivity|]. split; [by right|].
       split; [|split; [done|]].
       - split; [done|].
         intros (? & ? & ? & ? & [= <- <- <-] & _ & Hw' & _). congruence.
       - intros _. right; right; left. by exists (output_name more). }
  set (bytes := take (Z.to_nat (told f)) (contents f)).
  change (compile (Source_length (mkSource bytes 0)) create_compiler
            (mkSource bytes 0)) with (compile_source bytes).
  destruct (compile_source_outcome bytes)
    as [(c & -> & Hn & Hd)|[(c & -> & Hn & Hd)|(c & -> & Hn)]].
  - eexists. split; [reflexivity|]. split; [by left|].
    split; [|split; [done|done]].
    split; [|done]. intros _. exists prog, input_file, more, f.
    repeat split; try done. by apply balanced_iff.
  - eexists. split; [reflexivity|]. split; [by right|].
    split; [|split; [done|]].
    + split; [done|].
      intros (? & ? & ? & f' & [= <- <- <-] & Hf & _ & Hbal).
      rewrite Hfile in Hf. injection Hf as <-.
      apply balanced_iff in Hbal as [_ Hd']. fold bytes in Hd'. lia.
    + intros _. by do 4 right.
  - eexists. split; [reflexivity|]. split; [by right|].
    split; [|split; [done|]].
    + split; [done|].
      intros (? & ? & ? & f' & [= <- <- <-] & Hf & _ & Hbal).
      rewrite Hfile in Hf. injection Hf as <-.
      apply balanced_iff in Hbal as [Hn' _]. fold bytes in Hn'. congruence.
    + intros _. do 3 right. by left.
Qed.

Lemma main_exit_status_witness :
  ∃ run,
    main (mkWorld {["a.bf" := mkFile (bf "+[-].") 5]} (λ _, true)) ["bfc"; "a.bf"]
    = Some run
    ∧ status run = 0.
Proof.
  destruct (main_exit_status
              (mkWorld {["a.bf" := mkFile (bf "+[-].") 5]} (λ _, true))
              ["bfc"; "a.bf"]) as (run & Hrun & _ & Hiff & _).
  - done.
  - intros prog input_file more f [= <- <- <-] Hf. cbn [files] in Hf.
    rewrite lookup_singleton_eq in Hf. injection Hf as <-. by vm_compute.
  - exists run. split; [exact Hrun|]. apply Hiff.
    exists "bfc", "a.bf", [], (mkFile (bf "+[-].") 5). split; [reflexivity|].
    split; [apply lookup_singleton_eq|]. split; [reflexivity|].
    apply balanced_iff. split; reflexivity.
Defined.

(** X13: what the program leaves in the output file, under the
    conditions of X12.  The file is opened exactly when the input file
    opened and the output path opens; it is the file named by the second
    argument, or "output.s".  The text written to it is that of the eight
    records of the header and of a body, a text that holds no "sys_exit",
    followed by the text of the footer if the status is 0 and by nothing
    if it is 1: an unmatched bracket leaves an assembly file that lacks
    the exit sequence.  When the input file does not open, no output file
    is opened, whether its path would open or not. *)
Theorem main_output_file w argv run :
  (∀ prog input_file more f,
     argv = prog :: input_file :: more →
     files w !! input_file = Some f →
     0 ≤ told f ≤ Z.of_nat (List.length (contents f)) ∧ told f ≤ input_bound) →
  main w argv = Some run →
  (written run = None ↔
   ¬ ∃ prog input_file more f,
       argv = prog :: input_file :: more
       ∧ files w !! input_file = Some f
       ∧ writable w (output_name more) = true)
  ∧ (∀ name text, written run = Some (name, text) →
       ∃ prog input_file more body,
         argv = prog :: input_file :: more
         ∧ name = output_name more
         ∧ occurs "sys_exit" (render_all ([ Verbatim ("    .section .data" +:+ nl);
                  Verbatim ("memory:" +:+ nl);
                  ZeroDirective 30000;
                  Verbatim ("    .section .text" +:+ nl);
                  Verbatim ("    .globl _start" +:+ nl +:+ nl);
                  Verbatim ("_start:" +:+ nl);
                  Verbatim ("    # Initialize data pointer in r12" +:+ nl);
                  Verbatim ("    leaq memory(%rip), %r12" +:+ nl +:+ nl) ] ++ body)) = false
         ∧ (status run = 0 →
            text
            = render_all ([ Verbatim ("    .section .data" +:+ nl);
                  Verbatim ("memory:" +:+ nl);
                  ZeroDirective 30000;
                  Verbatim ("    .section .text" +:+ nl);
                  Verbatim ("    .globl _start" +:+ nl +:+ nl);
                  Verbatim ("_start:" +:+ nl);
                  Verbatim ("    # Initialize data pointer in r12" +:+ nl);
                  Verbatim ("    leaq memory(%rip), %r12" +:+ nl +:+ nl) ] ++ body)
              +:+ nl +:+ "    # Exit program" +:+ nl
              +:+ "    movq $60, %rax      # sys_exit" +:+ nl
              +:+ "    xorq %rdi, %rdi    # exit code 0" +:+ nl
              +:+ "    syscall" +:+ nl)
         ∧ (status run = 1 → text = render_all ([ Verbatim ("    .section .data" +:+ nl);
                  Verbatim ("memory:" +:+ nl);
                  ZeroDirective 30000;
                  Verbatim ("    .section .text" +:+ nl);
                  Verbatim ("    .globl _start" +:+ nl +:+ nl);
                  Verbatim ("_start:" +:+ nl);
                  Verbatim ("    # Initialize data pointer in r12" +:+ nl);
                  Verbatim ("    leaq memory(%rip), %r12" +:+ nl +:+ nl) ] ++ body))).
Proof.
  intros _.
  destruct argv as [|prog [|input_file more]]; [done| |].
  { intros [= <-]. simpl. split; [|done].
    split; [|done]. intros _ (? & ? & ? & ? & [=] & _). }
  unfold main, read_source.
  destruct (files w !! input_file) as [f|] eqn:Hfile.
  2: { intros [= <-]. simpl. split; [|done]. split; [|done].
       intros _ (? & ? & ? & ? & [= <- <- <-] & Hf & _). congruence. }
  case_bool_decide as Htold; [|done].
  destruct (writable w (output_name more)) eqn:Hw.
  2: { intros [= <-]. simpl. split; [|done]. split; [|done].
       intros _ (? & ? & ? & ? & [= <- <- <-] & _ & Hw'). congruence. }
  set (bytes := take (Z.to_nat (told f)) (contents f)).
  change (compile (Source_length (mkSource bytes 0)) create_compiler
            (mkSource bytes 0)) with (compile_source bytes).
  destruct (compile_source_frame bytes)
    as [(c & body & -> & Ho & Ht)|(msg & c & body & -> & Ho & Ht)];
    intros [= <-]; simpl.
  - split.
    + split; [done|]. intros Hno. exfalso. apply Hno.
      by exists prog, input_file, more, f.
    + intros name text [= <- <-]. exists prog, input_file, more, body.
      split; [done|]. split; [done|]. split; [exact Ht|].
      split; [|intros [=]]. intros _.
      rewrite Ho, app_assoc, render_all_app. reflexivity.
  - split.
    + split; [done|]. intros Hno. exfalso. apply Hno.
      by exists prog, input_file, more, f.
    + intros name text [= <- <-]. exists prog, input_file, more, body.
      split; [done|]. split; [done|]. split; [exact Ht|].
      split; [intros [=]|]. intros _. by rewrite Ho.
Qed.

Lemma main_output_file_witness :
  ∃ run name text body,
    main (mkWorld {["a.bf" := mkFile (bf "+[-") 3]} (λ _, true))
      ["bfc"; "a.bf"; "a.s"]
    = Some run
    ∧ status run = 1
    ∧ written run = Some (name, text)
    ∧ name = "a.s"
    ∧ text = render_all (header ++ body)
    ∧ occurs "sys_exit" text = false.
Proof.
  destruct (main (mkWorld {["a.bf" := mkFile (bf "+[-") 3]} (λ _, true))
              ["bfc"; "a.bf"; "a.s"])
    as [run|] eqn:Hrun; [|by vm_compute in Hrun].
  assert (Hfiles : ∀ prog input_file more f,
            ["bfc"; "a.bf"; "a.s"] = prog :: input_file :: more →
            ({["a.bf" := mkFile (bf "+[-") 3]} : gmap string File) !! input_file
            = Some f →
            0 ≤ told f ≤ Z.of_nat (List.length (contents f))
            ∧ told f ≤ input_bound).
  { intros prog input_file more f [= <- <- <-] Hf.
    rewrite lookup_singleton_eq in Hf. injection Hf as <-. by vm_compute. }
  pose proof (main_output_file
                (mkWorld {["a.bf" := mkFile (bf "+[-") 3]} (λ _, true))
                _ _ Hfiles Hrun) as [_ Hfile].
  vm_compute in Hrun. injection Hrun as <-.
  destruct (Hfile _ _ eq_refl) as (p & i & m & body & Hargs & Hname & Ht & _ & Htext).
  injection Hargs as <- <- <-.
  eexists _, _, _, body. split; [reflexivity|]. split; [reflexivity|].
  split; [reflexivity|]. split; [exact Hname|].
  split; [exact (Htext eq_refl)|]. rewrite (Htext eq_refl). exact Ht.
Defined.
